(** * AImongUs: the host-side game engine of [wordAileManager.ts]

    A shallow embedding of [AmongUsManager] (the round state machine, the
    collection of decisions, the kill / movement / vote resolvers and the
    win check) and of the participant-side [validateAction] of
    [FxnClientInterface], followed by the properties of the engine.

    Conventions of the embedding.
    - JS numbers that hold small integers (rooms, rounds, vote counts)
      are [Z]; [%] is [Z.rem], as in JS.
    - A JS [Map] is an insertion-ordered association list ([JsMap]):
      [forEach] and [entries()] visit it in list order, [set] of a
      present key overwrites in place, [set] of a new key appends.
    - The mutable [gameState] is passed explicitly; a mutation of a
      player object obtained from the map is a [JsMap.set] at its key.
    - [Math.random()] draws are rationals supplied by the environment
      [Env], and [Math.floor(r * n)] is computed exactly; the comparator
      sort [sort(() => Math.random() - 0.5)] is an environment function
      on lists.  Timers are not modelled: each timer callback is one
      operation of the state machine. *)

From Stdlib Require Import String Ascii List ZArith QArith Qround Bool Lia
  Permutation Arith FinFun DecimalString DecimalNat DecimalFacts.
From Equations Require Import Equations.
Import ListNotations.
Close Scope Q_scope.
Open Scope string_scope.

(** ** JS values and the insertion-ordered [Map] *)

(** A JSON field that holds a string when it is present. *)
Inductive JsString : Type :=
| undefined
| null
| str (s : string).

(** JS truthiness: [undefined], [null] and the empty string are falsy. *)
Definition truthy (v : JsString) : bool :=
  match v with
  | str s => negb (s =? "")
  | _ => false
  end.

(** [v === 'lit'] for a string literal. *)
Definition strictEq (v : JsString) (lit : string) : bool :=
  match v with
  | str s => s =? lit
  | _ => false
  end.

(** [v || 'skip'] *)
Definition orSkip (v : JsString) : string :=
  match v with
  | str s => if s =? "" then "skip" else s
  | _ => "skip"
  end.

Module JsMap.
Section Defs.
Context {V : Type}.

Definition t : Type := list (string * V).

Definition empty : t := [].

Fixpoint get (m : t) (k : string) : option V :=
  match m with
  | [] => None
  | (k', v) :: m' => if k' =? k then Some v else get m' k
  end.

Fixpoint set (m : t) (k : string) (v : V) : t :=
  match m with
  | [] => [(k, v)]
  | (k', v') :: m' =>
      if k' =? k then (k', v) :: m' else (k', v') :: set m' k v
  end.

Definition keys (m : t) : list string := map fst m.

Definition values (m : t) : list V := map snd m.

(** [for (const [k, v] of m.entries()) { v.field = ... }]: every stored
    object is mutated in place, the keys and their order stay. *)
Definition forEachValue (f : V -> V) (m : t) : t :=
  map (fun kv => (fst kv, f (snd kv))) m.
End Defs.
Arguments t : clear implicits.
End JsMap.

(** ** Data model (the interfaces of wordAileManager.ts) *)

Inductive RoleType : Type := crewmate | impostor.

Record PlayerRole : Type := mkRole {
  role_type : RoleType;   (* [type] of PlayerRole *)
  room : Z                (* 0-5 for the 6 rooms *)
}.

(** [PlayerAction], [PlayerMovement] and [PlayerVote] are one kind of JSON
    object at run time: whatever the participant answered is stored as it
    came.  One record carries the fields the three interfaces declare. *)
Record Decision : Type := mkDecision {
  type : JsString;
  target : JsString;
  accusationText : JsString;
  voteText : JsString
}.

Definition PlayerAction := Decision.
Definition PlayerMovement := Decision.
Definition PlayerVote := Decision.

Record PlayerState : Type := mkPlayer {
  publicKey : string;
  role : PlayerRole;
  isAlive : bool;
  lastAction : option PlayerAction;
  lastMovement : option PlayerMovement;
  lastVote : option PlayerVote
}.

Inductive Phase : Type := action | movement | voting | complete.

Inductive Winner : Type := crew | impostors.

Record GameState : Type := mkGame {
  players : JsMap.t PlayerState;
  phase : Phase;
  currentRound : Z;
  actionOrder : list string;
  accusedPlayer : option string;
  votingResults : option (JsMap.t string);
  isActive : bool;
  winner : option Winner
}.

Definition roleTypeEqb (a b : RoleType) : bool :=
  match a, b with
  | crewmate, crewmate | impostor, impostor => true
  | _, _ => false
  end.

Definition isImpostorRole (r : PlayerRole) : bool :=
  roleTypeEqb (role_type r) impostor.

(** Field assignments. *)

Definition setType (v : JsString) (d : Decision) : Decision :=
  mkDecision v (target d) (accusationText d) (voteText d).

Definition setRoom (z : Z) (p : PlayerState) : PlayerState :=
  mkPlayer (publicKey p) (mkRole (role_type (role p)) z) (isAlive p)
    (lastAction p) (lastMovement p) (lastVote p).

Definition setIsAlive (b : bool) (p : PlayerState) : PlayerState :=
  mkPlayer (publicKey p) (role p) b (lastAction p) (lastMovement p) (lastVote p).

Definition setLastAction (a : option Decision) (p : PlayerState) : PlayerState :=
  mkPlayer (publicKey p) (role p) (isAlive p) a (lastMovement p) (lastVote p).

Definition setLastMovement (m : option Decision) (p : PlayerState) : PlayerState :=
  mkPlayer (publicKey p) (role p) (isAlive p) (lastAction p) m (lastVote p).

Definition setLastVote (v : option Decision) (p : PlayerState) : PlayerState :=
  mkPlayer (publicKey p) (role p) (isAlive p) (lastAction p) (lastMovement p) v.

Definition setPlayers (ps : JsMap.t PlayerState) (gs : GameState) : GameState :=
  mkGame ps (phase gs) (currentRound gs) (actionOrder gs) (accusedPlayer gs)
    (votingResults gs) (isActive gs) (winner gs).

Definition setPhase (ph : Phase) (gs : GameState) : GameState :=
  mkGame (players gs) ph (currentRound gs) (actionOrder gs) (accusedPlayer gs)
    (votingResults gs) (isActive gs) (winner gs).

Definition setCurrentRound (n : Z) (gs : GameState) : GameState :=
  mkGame (players gs) (phase gs) n (actionOrder gs) (accusedPlayer gs)
    (votingResults gs) (isActive gs) (winner gs).

Definition setActionOrder (o : list string) (gs : GameState) : GameState :=
  mkGame (players gs) (phase gs) (currentRound gs) o (accusedPlayer gs)
    (votingResults gs) (isActive gs) (winner gs).

Definition setAccusedPlayer (a : option string) (gs : GameState) : GameState :=
  mkGame (players gs) (phase gs) (currentRound gs) (actionOrder gs) a
    (votingResults gs) (isActive gs) (winner gs).

Definition setVotingResults (v : option (JsMap.t string)) (gs : GameState) : GameState :=
  mkGame (players gs) (phase gs) (currentRound gs) (actionOrder gs)
    (accusedPlayer gs) v (isActive gs) (winner gs).

(** [isActive = false; winner = w] of checkWinCondition. *)
Definition declareWinner (w : Winner) (gs : GameState) : GameState :=
  mkGame (players gs) (phase gs) (currentRound gs) (actionOrder gs)
    (accusedPlayer gs) (votingResults gs) false (Some w).

(** ** The view sent to a participant (getPlayerView) *)

Record PlayerView : Type := mkPlayerView {
  pv_publicKey : string;
  pv_isAlive : bool;
  pv_room : Z;
  pv_role : option RoleType;   (* [isImpostor ? p.role.type : undefined] *)
  pv_lastAction : option Decision;
  pv_lastVote : option Decision
}.

Record View : Type := mkView {
  view_phase : Phase;
  view_currentRound : Z;
  view_actionOrder : list string;
  view_accusedPlayer : option string;
  yourRole : option PlayerRole;   (* [player?.role] *)
  view_players : list PlayerView;
  view_winner : option Winner
}.

Definition getPlayerView (gs : GameState) (pk : string) : View :=
  let player := JsMap.get (players gs) pk in
  let isImpostor :=
    match player with
    | Some p => isImpostorRole (role p)
    | None => false
    end in
  mkView (phase gs) (currentRound gs) (actionOrder gs) (accusedPlayer gs)
    (option_map role player)
    (map (fun p =>
            mkPlayerView (publicKey p) (isAlive p) (room (role p))
              (if isImpostor then Some (role_type (role p)) else None)
              (lastAction p) (lastVote p))
         (JsMap.values (players gs)))
    (winner gs).

(** ** The environment: subscribers, their answers, and random draws *)

Record Subscriber : Type := mkSubscriber {
  subscriber : string;
  status : string
}.

Record Env : Type := mkEnv {
  (* fxnClient.getSubscribers() *)
  getSubscribers : list Subscriber;
  (* the JSON body of a fulfilled, ok response of a subscriber to the
     broadcast; None when the call failed or the response was not ok *)
  answer : string -> option Decision;
  (* [...l].sort(() => Math.random() - 0.5) *)
  sortRandom : list string -> list string;
  (* the Math.random() of assignRoles at forEach index i *)
  roomRandom : nat -> Q;
  (* the (up to two) Math.random() draws of makeBotDecision for a bot *)
  botRandom : string -> Q * Q
}.

(** [x < y] on draws. *)
Definition Qltb (x y : Q) : bool :=
  (Qnum x * Zpos (Qden y) <? Qnum y * Zpos (Qden x))%Z.

(** [Math.floor(r * n)] *)
Definition floorMul (r : Q) (n : Z) : Z := Qfloor (r * inject_Z n)%Q.

Definition unitDraw (r : Q) : Prop := (0 <= r)%Q /\ (r < 1)%Q.

(** What the JS run time guarantees of the environment: the sort returns
    a rearrangement of its input and every draw lies in [0, 1). *)
Record fair (e : Env) : Prop := mkFair {
  fair_sort : forall l, Permutation l (sortRandom e l);
  fair_room : forall i, unitDraw (roomRandom e i);
  fair_bot : forall k, unitDraw (fst (botRandom e k)) /\ unitDraw (snd (botRandom e k))
}.

(** ** Game set-up: initializeGameState, assignRoles, startGame *)

Definition initializeGameState : GameState :=
  mkGame JsMap.empty action 1 [] None None true None.

(** [`bot-${n}`] *)
Definition botName (n : nat) : string :=
  "bot-" ++ NilZero.string_of_uint (Nat.to_uint n).

(** [while (activePlayers.length < 6) activePlayers.push(`bot-${activePlayers.length + 1}`)] *)
Equations? padBots (activePlayers : list string) : list string
  by wf (6 - length activePlayers) lt :=
  padBots activePlayers with lt_dec (length activePlayers) 6 => {
    | left _ := padBots (activePlayers ++ [botName (length activePlayers + 1)]);
    | right _ := activePlayers }.
Proof.
  clear padBots.
  change (6 - length (activePlayers ++ [botName (length activePlayers + 1)])
          < 6 - length activePlayers).
  rewrite length_app. simpl length. lia.
Qed.

(** The player record assignRoles stores for [publicKey] at forEach
    position [index]. *)
Definition newPlayer (e : Env) (index : nat) (publicKey : string) : PlayerState :=
  mkPlayer publicKey
    (mkRole (if (index <? 2)%nat then impostor else crewmate)
            (floorMul (roomRandom e index) 6))
    true None None None.

Definition assignRoles (e : Env) (candidates : list string) (gs : GameState)
  : GameState :=
  let shuffled := sortRandom e candidates in
  setPlayers
    (fold_left
       (fun m ik => JsMap.set m (snd ik) (newPlayer e (fst ik) (snd ik)))
       (combine (seq 0 (length shuffled)) shuffled)
       (players gs))
    gs.

Definition shuffleActionOrder (e : Env) (gs : GameState) : list string :=
  sortRandom e
    (filter (fun key =>
               match JsMap.get (players gs) key with
               | Some p => isAlive p
               | None => false
               end)
            (JsMap.keys (players gs))).

(** ** The fallback policy of the synthetic participants (makeBotDecision) *)

Definition pass : Decision := mkDecision (str "pass") undefined undefined undefined.

Definition movements : list string := ["stay"; "clockwise"; "counterclockwise"].

Definition ofOption (o : option string) : JsString :=
  match o with
  | Some s => str s
  | None => undefined
  end.

(** [potentialTargets]: [!p.role] holds only of an absent role, the two
    role names being non-empty strings. *)
Definition potentialTargets (gameState : View) (yr : PlayerRole) : list PlayerView :=
  filter (fun p =>
            pv_isAlive p && (pv_room p =? room yr)%Z
            && match pv_role p with None => true | Some _ => false end)
         (view_players gameState).

(** [r1] is the first Math.random() of the call, [r2] the second.  The
    result is [None] where the JS throws a TypeError (a view without
    [yourRole], an index outside [potentialTargets]). *)
Definition makeBotDecision (r1 r2 : Q) (gameState : View) : option Decision :=
  match yourRole gameState with
  | None => None
  | Some yr =>
      let isImpostor := isImpostorRole yr in
      match view_phase gameState with
      | action =>
          if isImpostor && Qltb r1 (3 # 10) then
            let targets := potentialTargets gameState yr in
            if (0 <? length targets)%nat then
              match nth_error targets
                      (Z.to_nat (floorMul r2 (Z.of_nat (length targets)))) with
              | Some t => Some (mkDecision (str "kill") (str (pv_publicKey t))
                                           undefined undefined)
              | None => None
              end
            else Some pass
          else Some pass
      | movement =>
          Some (mkDecision
                  (ofOption (nth_error movements
                               (Z.to_nat (floorMul r1 (Z.of_nat (length movements))))))
                  undefined undefined undefined)
      | voting =>
          if Qltb r1 (7 # 10) then
            Some (mkDecision undefined (ofOption (view_accusedPlayer gameState))
                             undefined (str "Suspicious behavior"))
          else
            Some (mkDecision undefined null undefined (str "Not enough evidence"))
      | complete => Some pass
      end
  end.

(** ** Collection of decisions (broadcastGameState) *)

(** [this.gameState.votingResults?.set(k, v)] *)
Definition recordVote (k v : string) (gs : GameState) : GameState :=
  match votingResults gs with
  | Some m => setVotingResults (Some (JsMap.set m k v)) gs
  | None => gs
  end.

Definition putPlayer (k : string) (p : PlayerState) (gs : GameState) : GameState :=
  setPlayers (JsMap.set (players gs) k p) gs.

(** The body of the response handler of one subscriber, from
    [const player = this.gameState.players.get(publicKey)] on. *)
Definition handleReply (gs : GameState) (pk : string) (responseData : Decision)
  : GameState :=
  match JsMap.get (players gs) pk with
  | None => gs
  | Some player =>
      if negb (isAlive player) then gs
      else
        match phase gs with
        | action =>
            if truthy (type responseData) then
              let responseData' :=
                if strictEq (type responseData) "kill"
                   && negb (isImpostorRole (role player))
                then setType (str "pass") responseData
                else responseData in
              putPlayer pk (setLastAction (Some responseData') player) gs
            else gs
        | movement =>
            if truthy (type responseData) then
              putPlayer pk (setLastMovement (Some responseData) player) gs
            else gs
        | voting =>
            match target responseData with
            | undefined => gs
            | t =>
                recordVote pk (orSkip t)
                  (putPlayer pk (setLastVote (Some responseData) player) gs)
            end
        | complete => gs
        end
  end.

Definition handleSubscriber (e : Env) (gs : GameState) (sub : Subscriber)
  : GameState :=
  if status sub =? "active" then
    match answer e (subscriber sub) with
    | Some responseData => handleReply gs (subscriber sub) responseData
    | None => gs
    end
  else gs.

(** One iteration of the loop over the bot players. *)
Definition botTurn (e : Env) (gs : GameState) (pk : string) : GameState :=
  match JsMap.get (players gs) pk with
  | None => gs
  | Some player =>
      if String.prefix "bot-" pk && isAlive player then
        match makeBotDecision (fst (botRandom e pk)) (snd (botRandom e pk))
                (getPlayerView gs pk) with
        | None => gs
        | Some botDecision =>
            match phase gs with
            | action => putPlayer pk (setLastAction (Some botDecision) player) gs
            | movement => putPlayer pk (setLastMovement (Some botDecision) player) gs
            | voting =>
                recordVote pk (orSkip (target botDecision))
                  (putPlayer pk (setLastVote (Some botDecision) player) gs)
            | complete => gs
            end
        end
      else gs
  end.

(** The bot loop runs to its end before the first network reply is
    handled; the replies are then handled in the order of the subscriber
    list, all within the phase the broadcast was made in. *)
Definition broadcastGameState (e : Env) (gs : GameState) : GameState :=
  fold_left (handleSubscriber e) (getSubscribers e)
    (fold_left (botTurn e) (JsMap.keys (players gs)) gs).

(** ** The win check (checkWinCondition) *)

Definition alivePlayers (gs : GameState) : list PlayerState :=
  filter isAlive (JsMap.values (players gs)).

Definition aliveImpostors (gs : GameState) : Z :=
  Z.of_nat (length (filter (fun p => isImpostorRole (role p)) (alivePlayers gs))).

Definition aliveCrew (gs : GameState) : Z :=
  (Z.of_nat (length (alivePlayers gs)) - aliveImpostors gs)%Z.

Definition checkWinCondition (gs : GameState) : GameState :=
  if (aliveImpostors gs =? 0)%Z then declareWinner crew gs
  else if (aliveCrew gs =? 0)%Z then declareWinner impostors gs
  else gs.

(** ** Phase entry points (startRound, startMovementPhase, startVotingPhase) *)

Definition startRound (e : Env) (gs : GameState) : GameState :=
  if negb (isActive gs) then gs
  else
    let gs1 := setPhase action gs in
    let gs2 := setActionOrder (shuffleActionOrder e gs1) gs1 in
    broadcastGameState e gs2.

Definition startMovementPhase (e : Env) (gs : GameState) : GameState :=
  broadcastGameState e (setPhase movement gs).

Definition startVotingPhase (e : Env) (accused : string) (gs : GameState)
  : GameState :=
  broadcastGameState e
    (setVotingResults (Some JsMap.empty)
       (setAccusedPlayer (Some accused) (setPhase voting gs))).

Definition startGame (e : Env) (gs : GameState) : GameState :=
  let activePlayers :=
    map subscriber
        (filter (fun sub => status sub =? "active") (getSubscribers e)) in
  let gs1 := assignRoles e (padBots activePlayers) gs in
  let gs2 := setActionOrder (shuffleActionOrder e gs1) gs1 in
  startRound e gs2.

(** The constructor. *)
Definition newManager (e : Env) : GameState := startGame e initializeGameState.

(** ** The round resolver (processRound) *)

(** One iteration of "Process kills first".  The loop variable [player]
    is the object stored under [pk], read when its turn comes. *)
Definition killTurn (ps : JsMap.t PlayerState) (pk : string)
  : JsMap.t PlayerState :=
  match JsMap.get ps pk with
  | None => ps
  | Some player =>
      match lastAction player with
      | None => ps
      | Some a =>
          if strictEq (type a) "kill" && truthy (target a) then
            match target a with
            | str t =>
                match JsMap.get ps t with
                | None => ps
                | Some tgt =>
                    if isAlive tgt && isImpostorRole (role player) then
                      if (room (role tgt) =? room (role player))%Z then
                        JsMap.set ps t (setIsAlive false tgt)
                      else ps
                    else ps
                end
            | _ => ps
            end
          else ps
      end
  end.

Definition processKills (ps : JsMap.t PlayerState) : JsMap.t PlayerState :=
  fold_left killTurn (JsMap.keys ps) ps.

(** The body of "Update positions based on movements". *)
Definition movePlayer (player : PlayerState) : PlayerState :=
  match lastMovement player with
  | None => player
  | Some m =>
      if strictEq (type m) "clockwise" then
        setRoom (Z.rem (room (role player) + 1) 6) player
      else if strictEq (type m) "counterclockwise" then
        setRoom (Z.rem (room (role player) + 5) 6) player
      else player
  end.

(** The body of "Clear only the action/movement records". *)
Definition clearRecords (player : PlayerState) : PlayerState :=
  setLastMovement None (setLastAction None player).

(** The three loops of processRound: the resolution step of a round. *)
Definition resolveRound (gs : GameState) : GameState :=
  setPlayers
    (JsMap.forEachValue clearRecords
       (JsMap.forEachValue movePlayer (processKills (players gs))))
    gs.

Definition processRound (e : Env) (gs : GameState) : GameState :=
  let gs1 := checkWinCondition (resolveRound gs) in
  if isActive gs1 then
    startRound e (setCurrentRound (currentRound gs1 + 1) gs1)
  else
    broadcastGameState e gs1.

(** ** The vote resolver (processVotes) *)

(** [votes.set(target, (votes.get(target) || 0) + 1)] *)
Definition countVote (votes : JsMap.t Z) (tgt : string) : JsMap.t Z :=
  JsMap.set votes tgt
    (match JsMap.get votes tgt with
     | Some c => c
     | None => 0
     end + 1)%Z.

Definition tally (votingResults : JsMap.t string) : JsMap.t Z :=
  fold_left countVote (JsMap.values votingResults)
    (JsMap.set JsMap.empty "skip" 0%Z).

(** "Find highest vote count": the pair [(maxVotes, ejected)]. *)
Definition highest (votes : JsMap.t Z) : Z * option string :=
  fold_left
    (fun acc tc =>
       if (snd tc >? fst acc)%Z then (snd tc, Some (fst tc)) else acc)
    votes (0%Z, None).

(** "Eject player if majority". *)
Definition eject (ejected : option string) (gs : GameState) : GameState :=
  match ejected with
  | None => gs
  | Some name =>
      if negb (name =? "") && negb (name =? "skip") then
        match JsMap.get (players gs) name with
        | Some player => putPlayer name (setIsAlive false player) gs
        | None => gs
        end
      else gs
  end.

(** The tally and the ejection: the resolution step of a vote.  [None]
    is the early return of processVotes. *)
Definition resolveVotes (gs : GameState) : option GameState :=
  match votingResults gs, accusedPlayer gs with
  | Some results, Some accused =>
      if accused =? "" then None
      else Some (eject (snd (highest (tally results))) gs)
  | _, _ => None
  end.

Definition processVotes (e : Env) (gs : GameState) : GameState :=
  match resolveVotes gs with
  | None => gs
  | Some gs1 =>
      let gs2 := checkWinCondition gs1 in
      if isActive gs2 then startRound e gs2 else gs2
  end.

(** ** The participant side: validateAction of FxnClientInterface *)

(** [gameState.players.some(p => p.publicKey === target &&
      p.room === gameState.yourRole.room && p.isAlive)];
    [None] is the TypeError of reading [room] of an absent [yourRole]. *)
Fixpoint someCoLocatedAlive (ps : list PlayerView) (tgt : JsString)
  (yr : option PlayerRole) : option bool :=
  match ps with
  | [] => Some false
  | p :: ps' =>
      if strictEq tgt (pv_publicKey p) then
        match yr with
        | None => None
        | Some r =>
            if (pv_room p =? room r)%Z && pv_isAlive p then Some true
            else someCoLocatedAlive ps' tgt yr
        end
      else someCoLocatedAlive ps' tgt yr
  end.

(** [None] where the JS throws (an empty player list, an absent
    [yourRole]). *)
Definition validateAction (act : string) (tgt : JsString) (gameState : View)
  : option bool :=
  match view_players gameState with
  | [] => None
  | first :: _ =>
      if strictEq tgt (pv_publicKey first) then Some false
      else if act =? "kill" then
        match find (fun p => strictEq tgt (pv_publicKey p))
                   (view_players gameState) with
        | Some (mkPlayerView _ _ _ (Some impostor) _ _) => Some false
        | _ =>
            match someCoLocatedAlive (view_players gameState) tgt
                    (yourRole gameState) with
            | None => None
            | Some found => Some found
            end
        end
      else Some true
  end.

(** The action case of handleGameState after the generated text has been
    split into [type], [target] and [text]. *)
Definition clientAction (act : string) (tgt text : JsString) (gameState : View)
  : option Decision :=
  match validateAction act tgt gameState with
  | None => None
  | Some false => Some pass
  | Some true => Some (mkDecision (str act) tgt text undefined)
  end.


(** ** The participant side: handleGameState of FxnClientInterface *)

(** [c.toLowerCase()] on the ASCII letters. *)
Definition lowerAscii (c : ascii) : ascii :=
  let n := nat_of_ascii c in
  if ((65 <=? n) && (n <=? 90))%nat then ascii_of_nat (n + 32) else c.

(** [s.toLowerCase().startsWith(lit)] for a lower-case ASCII literal: only
    the characters in front of the string matter, and no character
    outside A-Z is turned into p, a or s. *)
Fixpoint startsWithLower (lit s : string) : bool :=
  match lit, s with
  | EmptyString, _ => true
  | String a lit', String c s' =>
      if Ascii.eqb (lowerAscii c) a then startsWithLower lit' s' else false
  | String _ _, EmptyString => false
  end.

(** [s.split(sep)] for a non-empty separator, scanning from the left.
    [skip] counts the characters of a separator just matched that are
    still to be passed over, [cur] is the piece collected so far. *)
Fixpoint splitFrom (sep : string) (skip : nat) (cur s : string) : list string :=
  match s with
  | EmptyString => [cur]
  | String c s' =>
      match skip with
      | S n => splitFrom sep n cur s'
      | O =>
          if String.prefix sep s
          then cur :: splitFrom sep (String.length sep - 1) EmptyString s'
          else splitFrom sep 0 (cur ++ String c EmptyString) s'
      end
  end.

Definition split (sep s : string) : list string := splitFrom sep 0 EmptyString s.

(** Element [i] of a destructured array: [undefined] past the end. *)
Definition element (parts : list string) (i : nat) : JsString :=
  ofOption (nth_error parts i).

(** The text generation back end and [String.prototype.trim] are taken
    from outside: [generateAction] and [generateMovement] stand for
    generateText on the action and the movement prompt of a view. *)
Record Client : Type := mkClient {
  generateAction : View -> string;
  generateMovement : View -> string;
  trim : string -> string
}.

(** The action case of handleGameState from the generated text on. *)
Definition parseAction (actionResponse : string) (gameState : View)
  : option Decision :=
  if startsWithLower "pass" actionResponse then Some pass
  else
    let parts := split " | " actionResponse in
    let action := match parts with a :: _ => a | [] => EmptyString end in
    let text := element parts 1 in
    let words := split " " action in
    let type_ := match words with w :: _ => w | [] => EmptyString end in
    let tgt := element words 1 in
    clientAction type_ tgt text gameState.

(** [None] where validateAction throws (the request handler then answers
    with status 500 and pass). *)
Definition handleGameState (c : Client) (gameState : View) : option Decision :=
  match view_phase gameState with
  | action => parseAction (generateAction c gameState) gameState
  | movement =>
      Some (mkDecision (str (trim c (generateMovement c gameState)))
                       undefined undefined undefined)
  | _ => Some pass
  end.
(** * Vocabulary of the properties *)

(** ** Kill resolution *)

(** The decision stored for [pk] is a kill aimed at [t] that passes the
    guards of the kill loop which do not depend on [t] being alive: the
    actor is an impostor, [t] is a player, and both are in one room. *)
Definition aims (ps : JsMap.t PlayerState) (pk t : string) : Prop :=
  exists player a tgt,
    JsMap.get ps pk = Some player /\ lastAction player = Some a /\
    strictEq (type a) "kill" = true /\ target a = str t /\ t <> "" /\
    JsMap.get ps t = Some tgt /\
    isImpostorRole (role player) = true /\
    room (role tgt) = room (role player).

Definition dead (ps : JsMap.t PlayerState) (t : string) : Prop :=
  exists tgt, JsMap.get ps t = Some tgt /\ isAlive tgt = false.

(** The alive flag of a participant, [None] for a key that is not one. *)
Definition aliveFlag (ps : JsMap.t PlayerState) (k : string) : option bool :=
  option_map isAlive (JsMap.get ps k).

(** Two player records that differ at most in the alive flag, which may
    only have gone from true to false. *)
Definition killedOrSame (p q : PlayerState) : Prop :=
  q = p \/ q = setIsAlive false p.

Definition entrywise (R : PlayerState -> PlayerState -> Prop)
  (ps ps' : JsMap.t PlayerState) : Prop :=
  Forall2 (fun a b => fst a = fst b /\ R (snd a) (snd b)) ps ps'.

(** ** Collection of decisions *)

(** Two player records that differ at most in the three decision slots. *)
Definition slotsOnly (p q : PlayerState) : Prop :=
  publicKey q = publicKey p /\ role q = role p /\ isAlive q = isAlive p.

(** What a broadcast may change: decision slots, and the recorded votes
    while the phase is voting. *)
Record collected (gs gs' : GameState) : Prop := mkCollected {
  col_phase : phase gs' = phase gs;
  col_round : currentRound gs' = currentRound gs;
  col_order : actionOrder gs' = actionOrder gs;
  col_accused : accusedPlayer gs' = accusedPlayer gs;
  col_active : isActive gs' = isActive gs;
  col_winner : winner gs' = winner gs;
  col_players : entrywise slotsOnly (players gs) (players gs');
  col_votes : phase gs <> voting -> votingResults gs' = votingResults gs
}.

(** ** The state machine *)

Definition roomInRange (p : PlayerState) : Prop :=
  (0 <= room (role p) < 6)%Z.

Definition roomsInRange (gs : GameState) : Prop :=
  Forall roomInRange (JsMap.values (players gs)).

(** One operation of the manager on its state, under any environment
    (any subscriber list, any answers, any draws). *)
Inductive operation : GameState -> GameState -> Prop :=
| op_startGame e gs : fair e -> operation gs (startGame e gs)
| op_assignRoles e l gs : fair e -> operation gs (assignRoles e l gs)
| op_startRound e gs : operation gs (startRound e gs)
| op_startMovementPhase e gs : operation gs (startMovementPhase e gs)
| op_startVotingPhase e accused gs : operation gs (startVotingPhase e accused gs)
| op_processVotes e gs : operation gs (processVotes e gs)
| op_processRound e gs : operation gs (processRound e gs)
| op_broadcastGameState e gs : operation gs (broadcastGameState e gs)
| op_checkWinCondition gs : operation gs (checkWinCondition gs).

(** Any finite sequence of operations. *)
Inductive operations : GameState -> GameState -> Prop :=
| ops_done gs : operations gs gs
| ops_step gs1 gs2 gs3 :
    operation gs1 gs2 -> operations gs2 gs3 -> operations gs1 gs3.

(** "The slots of every participant are cleared". *)
Definition slotsCleared (p : PlayerState) : Prop :=
  lastAction p = None /\ lastMovement p = None /\ lastVote p = None.

Definition countRole (r : RoleType) (ps : JsMap.t PlayerState) : nat :=
  length (filter (fun p => roleTypeEqb (role_type (role p)) r) (JsMap.values ps)).

(** ** Concrete games used as examples *)

Definition kill (t : string) : Decision :=
  mkDecision (str "kill") (str t) undefined undefined.

Definition vote (t : string) : Decision :=
  mkDecision undefined (str t) undefined (str "sus").

(** Room draws 0/12, 1/12, ..., 11/12, 0/12, ... *)
Definition demoDraw (i : nat) : Q := (Z.of_nat (i mod 12) # 12)%Q.

Definition six : list Subscriber :=
  map (fun k => mkSubscriber k "active")
      ["alice"; "bob"; "carol"; "dave"; "erin"; "frank"].

(** Six remote participants; the sort leaves the order as it is, so
    alice and bob become the impostors, and the room draws put alice, bob
    and carol in room 0.  Alice answers the first action broadcast with a
    kill aimed at bob. *)
Definition demoEnv : Env :=
  mkEnv six
    (fun k => if k =? "alice" then Some (kill "bob") else None)
    (fun l => l)
    demoDraw
    (fun _ => ((1 # 10)%Q, (1 # 2)%Q)).

(** Nobody answers. *)
Definition quietEnv : Env :=
  mkEnv six (fun _ => None) (fun l => l)
    demoDraw (fun _ => ((1 # 10)%Q, (1 # 2)%Q)).

(** Alice votes for bob, bob votes for alice, nobody else answers. *)
Definition tieEnv : Env :=
  mkEnv six
    (fun k => if k =? "alice" then Some (vote "bob")
              else if k =? "bob" then Some (vote "alice") else None)
    (fun l => l) demoDraw
    (fun _ => ((1 # 10)%Q, (1 # 2)%Q)).

(** No subscriber at all: six bots, bot-1 and bot-2 the impostors. *)
Definition botsEnv : Env :=
  mkEnv [] (fun _ => None) (fun l => l)
    demoDraw (fun _ => ((1 # 10)%Q, (1 # 2)%Q)).

(** The directory lists alice twice. *)
Definition twiceEnv : Env :=
  mkEnv (mkSubscriber "alice" "active" :: six) (fun _ => None) (fun l => l)
    demoDraw (fun _ => ((1 # 10)%Q, (1 # 2)%Q)).

(** The game right after construction, in its first action phase. *)
Definition demoGame : GameState := newManager demoEnv.

(** A vote on bob, entered from a quiet first round. *)
Definition demoVote : GameState :=
  startVotingPhase tieEnv "bob" (newManager quietEnv).

(** Two impostors in one room who aimed at each other, the crew dead. *)
Definition standoff : GameState :=
  mkGame
    [("alice", mkPlayer "alice" (mkRole impostor 3) true (Some (kill "bob")) None None);
     ("bob", mkPlayer "bob" (mkRole impostor 3) true (Some (kill "alice")) None None);
     ("carol", mkPlayer "carol" (mkRole crewmate 1) false None None None)]
    movement 4 ["alice"; "bob"] None None true None.

(** What the three loops of processRound do to one player record. *)
Definition resolved (p q : PlayerState) : Prop :=
  publicKey q = publicKey p /\
  role_type (role q) = role_type (role p) /\
  room (role q) = room (role (movePlayer p)) /\
  lastAction q = None /\ lastMovement q = None /\ lastVote q = lastVote p.

(** Alice moves clockwise, bob counterclockwise, nobody else answers. *)
Definition moveEnv : Env :=
  mkEnv six
    (fun k => if k =? "alice"
              then Some (mkDecision (str "clockwise") undefined undefined undefined)
              else if k =? "bob"
              then Some (mkDecision (str "counterclockwise") undefined undefined undefined)
              else None)
    (fun l => l) demoDraw (fun _ => ((1 # 10)%Q, (1 # 2)%Q)).

(** ** Role assignment *)

(** The entries assignRoles appends for a list of new keys, the first of
    them at forEach index [s]. *)
Definition seats (e : Env) (s : nat) (shuffled : list string)
  : JsMap.t PlayerState :=
  map (fun ik => (snd ik, newPlayer e (fst ik) (snd ik)))
      (combine (seq s (length shuffled)) shuffled).

(** Every player record is stored under its own publicKey. *)
Definition keyed (ps : JsMap.t PlayerState) : Prop :=
  Forall (fun kp => publicKey (snd kp) = fst kp) ps.

(** The record of the view of a player, as getPlayerView builds it for a
    viewer who is ([true]) or is not an impostor. *)
Definition viewOf (isImpostor : bool) (p : PlayerState) : PlayerView :=
  mkPlayerView (publicKey p) (isAlive p) (room (role p))
    (if isImpostor then Some (role_type (role p)) else None)
    (lastAction p) (lastVote p).

(** ** Further vocabulary *)

(** One operation of a running game: every operation but the set-up. *)
Inductive play : GameState -> GameState -> Prop :=
| play_startRound e gs : play gs (startRound e gs)
| play_startMovementPhase e gs : play gs (startMovementPhase e gs)
| play_startVotingPhase e accused gs : play gs (startVotingPhase e accused gs)
| play_processVotes e gs : play gs (processVotes e gs)
| play_processRound e gs : play gs (processRound e gs)
| play_broadcastGameState e gs : play gs (broadcastGameState e gs)
| play_checkWinCondition gs : play gs (checkWinCondition gs).

Inductive plays : GameState -> GameState -> Prop :=
| plays_done gs : plays gs gs
| plays_step gs1 gs2 gs3 : play gs1 gs2 -> plays gs2 gs3 -> plays gs1 gs3.

(** A stored kill is held by an impostor. *)
Definition killByImpostor (p : PlayerState) : Prop :=
  forall a, lastAction p = Some a -> strictEq (type a) "kill" = true ->
            isImpostorRole (role p) = true.

Definition killsByImpostors (gs : GameState) : Prop :=
  Forall killByImpostor (JsMap.values (players gs)).

(** Carol, a crewmate of the demo game, answers with a kill aimed at
    dave; nobody else answers. *)
Definition carolEnv : Env :=
  mkEnv six (fun k => if k =? "carol" then Some (kill "dave") else None)
    (fun l => l) demoDraw (fun _ => ((1 # 10)%Q, (1 # 2)%Q)).

(** What a running game may do to a player record: the key and the
    faction stay, and a dead participant stays dead. *)
Definition aged (p q : PlayerState) : Prop :=
  publicKey q = publicKey p /\
  role_type (role q) = role_type (role p) /\
  (isAlive p = false -> isAlive q = false).

(** The winner is set exactly when the game is not active. *)
Definition settled (gs : GameState) : Prop :=
  (isActive gs = true /\ winner gs = None) \/
  (isActive gs = false /\ winner gs <> None).

(** The vote recorded for [k], if votes are being recorded and there is
    one. *)
Definition recordedVote (gs : GameState) (k : string) : option string :=
  match votingResults gs with
  | Some m => JsMap.get m k
  | None => None
  end.

(** The number of recorded votes whose target is [t]. *)
Definition votesFor (results : JsMap.t string) (t : string) : Z :=
  Z.of_nat (count_occ string_dec (JsMap.values results) t).

(** The sum of the counts of a tally. *)
Definition totalCount (votes : JsMap.t Z) : Z :=
  fold_right Z.add 0%Z (JsMap.values votes).

(** A voting phase of the demo game in which two of six participants
    vote for carol and one for dave. *)
Definition pluralityVote : GameState :=
  setVotingResults
    (Some [("alice", "carol"); ("bob", "carol"); ("erin", "dave")])
    (setAccusedPlayer (Some "carol") (setPhase voting (newManager quietEnv))).

(** Two player records that show the same to a viewer who is not an
    impostor: they may differ in the faction and in lastMovement only. *)
Definition hiddenSame (p q : PlayerState) : Prop :=
  publicKey q = publicKey p /\ isAlive q = isAlive p /\
  room (role q) = room (role p) /\
  lastAction q = lastAction p /\ lastVote q = lastVote p.

(** The viewer [pk] is not an impostor (or is not a participant). *)
Definition notImpostor (gs : GameState) (pk : string) : Prop :=
  match JsMap.get (players gs) pk with
  | Some p => isImpostorRole (role p) = false
  | None => True
  end.

(** The keys of the participants that are alive, in map order. *)
Definition livingKeys (gs : GameState) : list string :=
  filter (fun key =>
            match JsMap.get (players gs) key with
            | Some p => isAlive p
            | None => false
            end)
         (JsMap.keys (players gs)).
(** * Properties *)

(** ** The insertion-ordered map *)

Module JsMapFacts.
Import JsMap.
Section Facts.
Context {V : Type}.
Implicit Types (m : JsMap.t V) (k : string) (v : V).

Lemma get_set_same m k v : get (set m k v) k = Some v.
Proof.
  induction m as [|[k' v'] m IH]; simpl.
  - now rewrite String.eqb_refl.
  - destruct (k' =? k) eqn:E; simpl; rewrite E; auto.
Qed.

Lemma get_set_other m k k' v : k <> k' -> get (set m k v) k' = get m k'.
Proof.
  intros Hne. induction m as [|[k0 v0] m IH]; simpl.
  - destruct (k =? k') eqn:E; auto. apply String.eqb_eq in E. contradiction.
  - destruct (k0 =? k) eqn:E; simpl.
    + apply String.eqb_eq in E. subst k0.
      destruct (k =? k') eqn:E'; auto.
      apply String.eqb_eq in E'. contradiction.
    + now rewrite IH.
Qed.

Lemma get_in_keys m k v : get m k = Some v -> In k (keys m).
Proof.
  induction m as [|[k' v'] m IH]; simpl; [discriminate|].
  destruct (k' =? k) eqn:E.
  - apply String.eqb_eq in E. auto.
  - auto.
Qed.

Lemma get_none_keys m k : get m k = None <-> ~ In k (keys m).
Proof.
  induction m as [|[k' v'] m IH]; simpl.
  - tauto.
  - destruct (String.eqb_spec k' k).
    + split; [discriminate | tauto].
    + rewrite IH. tauto.
Qed.

Lemma in_keys_get m k : In k (keys m) -> exists v, get m k = Some v.
Proof.
  intros Hin. destruct (get m k) eqn:E; eauto.
  apply get_none_keys in E. contradiction.
Qed.

Lemma keys_set_present m k v v' :
  get m k = Some v' -> keys (set m k v) = keys m.
Proof.
  induction m as [|[k0 v0] m IH]; simpl; [discriminate|].
  destruct (k0 =? k) eqn:E; simpl; auto.
  intros H. now rewrite IH.
Qed.

Lemma set_absent m k v : get m k = None -> set m k v = (m ++ [(k, v)])%list.
Proof.
  induction m as [|[k0 v0] m IH]; simpl; auto.
  destruct (k0 =? k); [discriminate|].
  intros H. now rewrite IH.
Qed.

Lemma get_app_absent m k k' v :
  get (m ++ [(k, v)])%list k' =
  match get m k' with
  | Some x => Some x
  | None => if k =? k' then Some v else None
  end.
Proof.
  induction m as [|[k0 v0] m IH]; simpl; auto.
  destruct (k0 =? k'); auto.
Qed.

(** Overwriting a present key relates the two maps entry by entry. *)
Lemma set_Forall2 (R : V -> V -> Prop) m k v v' :
  (forall x, R x x) -> get m k = Some v -> R v v' ->
  Forall2 (fun a b => fst a = fst b /\ R (snd a) (snd b)) m (set m k v').
Proof.
  intros Hrefl. induction m as [|[k0 v0] m IH]; simpl; [discriminate|].
  destruct (k0 =? k) eqn:E; intros Hget HR.
  - injection Hget as ->. constructor; [simpl; auto|].
    clear IH. induction m; constructor; auto.
  - constructor; [simpl; auto|]. auto.
Qed.

Lemma get_forEachValue (f : V -> V) m k :
  get (forEachValue f m) k = option_map f (get m k).
Proof.
  induction m as [|[k0 v0] m IH]; simpl; auto.
  destruct (k0 =? k); auto.
Qed.

Lemma keys_forEachValue (f : V -> V) m : keys (forEachValue f m) = keys m.
Proof.
  unfold keys, forEachValue. rewrite map_map. reflexivity.
Qed.

Lemma values_forEachValue (f : V -> V) m :
  values (forEachValue f m) = map f (values m).
Proof.
  unfold values, forEachValue. now rewrite !map_map.
Qed.

End Facts.
End JsMapFacts.

(** A loop whose every iteration stays inside a preorder stays inside it. *)
Lemma fold_left_preorder {S X : Type} (R : S -> S -> Prop) (f : S -> X -> S) :
  (forall s, R s s) ->
  (forall a b c, R a b -> R b c -> R a c) ->
  (forall s x, R s (f s x)) ->
  forall l s, R s (fold_left f l s).
Proof.
  intros Hrefl Htrans Hstep l. induction l as [|x l IH]; simpl; intros s.
  - apply Hrefl.
  - eapply Htrans; [apply Hstep | apply IH].
Qed.

(** An invariant of every iteration is an invariant of the loop. *)
Lemma fold_left_invariant {S X : Type} (P : S -> Prop) (f : S -> X -> S) :
  (forall s x, P s -> P (f s x)) ->
  forall l s, P s -> P (fold_left f l s).
Proof.
  intros Hstep l. induction l as [|x l IH]; simpl; auto.
Qed.

(** ** Entrywise relations between player maps *)

Lemma entrywise_refl (R : PlayerState -> PlayerState -> Prop) ps :
  (forall p, R p p) -> entrywise R ps ps.
Proof.
  intros Hrefl. induction ps; constructor; auto.
Qed.

Lemma entrywise_trans (R : PlayerState -> PlayerState -> Prop) ps1 ps2 ps3 :
  (forall p q r, R p q -> R q r -> R p r) ->
  entrywise R ps1 ps2 -> entrywise R ps2 ps3 -> entrywise R ps1 ps3.
Proof.
  intros Htrans H12. revert ps3.
  induction H12 as [|a b l1 l2 [Hk HR] _ IH]; intros ps3 H23; inversion H23; subst.
  - constructor.
  - constructor; [|apply IH; assumption].
    match goal with H : _ /\ _ |- _ => destruct H as [Hk' HR'] end.
    split; [congruence | eauto].
Qed.

Lemma entrywise_impl (R R' : PlayerState -> PlayerState -> Prop) ps ps' :
  (forall p q, R p q -> R' p q) -> entrywise R ps ps' -> entrywise R' ps ps'.
Proof.
  intros Himpl H. induction H as [|a b l1 l2 [Hk HR] _ IH]; constructor; auto.
Qed.

Lemma entrywise_keys R ps ps' :
  entrywise R ps ps' -> JsMap.keys ps' = JsMap.keys ps.
Proof.
  intros H. unfold JsMap.keys.
  induction H as [|a b l1 l2 [Hk HR] _ IH]; simpl; [reflexivity|].
  now rewrite IH, Hk.
Qed.

Lemma entrywise_get R ps ps' k :
  entrywise R ps ps' ->
  match JsMap.get ps k, JsMap.get ps' k with
  | Some p, Some q => R p q
  | None, None => True
  | _, _ => False
  end.
Proof.
  intros H. induction H as [|[k1 p] [k2 q] l1 l2 [Hk HR] _ IH]; simpl; [exact I|].
  simpl in Hk. subst k2. destruct (k1 =? k); assumption.
Qed.

Lemma entrywise_set R ps k p p' :
  (forall x, R x x) -> JsMap.get ps k = Some p -> R p p' ->
  entrywise R ps (JsMap.set ps k p').
Proof.
  intros. eapply JsMapFacts.set_Forall2; eauto.
Qed.

Lemma entrywise_forEachValue R f ps :
  (forall p, R p (f p)) -> entrywise R ps (JsMap.forEachValue f ps).
Proof.
  intros Hf. induction ps as [|[k p] ps IH]; constructor; simpl; auto.
Qed.

Lemma entrywise_values_Forall R (P : PlayerState -> Prop) ps ps' :
  (forall p q, R p q -> P p -> P q) ->
  entrywise R ps ps' ->
  Forall P (JsMap.values ps) -> Forall P (JsMap.values ps').
Proof.
  intros HRP H. induction H as [|a b l1 l2 [Hk HR] _ IH]; simpl; intros HF.
  - constructor.
  - inversion HF; subst. constructor; eauto.
Qed.

(** ** The kill loop *)

Lemma killedOrSame_refl p : killedOrSame p p.
Proof. now left. Qed.

Lemma killedOrSame_trans p q r :
  killedOrSame p q -> killedOrSame q r -> killedOrSame p r.
Proof.
  unfold killedOrSame. intros [-> | ->] [-> | ->]; auto.
Qed.

(** What one iteration of the kill loop can do: nothing, or mark as dead
    the live, co-located target an impostor aimed at. *)
Lemma killTurn_cases ps pk :
  killTurn ps pk = ps \/
  exists t tgt,
    aims ps pk t /\ JsMap.get ps t = Some tgt /\ isAlive tgt = true /\
    killTurn ps pk = JsMap.set ps t (setIsAlive false tgt).
Proof.
  unfold killTurn.
  destruct (JsMap.get ps pk) as [player|] eqn:Hp; [|now left].
  destruct (lastAction player) as [a|] eqn:Ha; [|now left].
  destruct (strictEq (type a) "kill") eqn:Hk; simpl; [|now left].
  destruct (truthy (target a)) eqn:Ht; [|now left].
  destruct (target a) as [| |t] eqn:Htg; try now left.
  destruct (JsMap.get ps t) as [tgt|] eqn:Htgt; [|now left].
  destruct (isAlive tgt) eqn:Hal; simpl; [|now left].
  destruct (isImpostorRole (role player)) eqn:Himp; [|now left].
  destruct (room (role tgt) =? room (role player))%Z eqn:Hroom; [|now left].
  right. exists t, tgt. repeat split; auto.
  exists player, a, tgt. repeat split; auto.
  - simpl in Ht. intros ->. discriminate.
  - now apply Z.eqb_eq.
Qed.

Lemma killTurn_entrywise ps pk : entrywise killedOrSame ps (killTurn ps pk).
Proof.
  destruct (killTurn_cases ps pk) as [-> | (t & tgt & _ & Hget & _ & ->)].
  - apply entrywise_refl, killedOrSame_refl.
  - eapply entrywise_set; eauto using killedOrSame_refl. now right.
Qed.

Lemma processKills_fold_entrywise ks ps :
  entrywise killedOrSame ps (fold_left killTurn ks ps).
Proof.
  apply (fold_left_preorder (entrywise killedOrSame)).
  - intros s. apply entrywise_refl, killedOrSame_refl.
  - intros a b c. apply entrywise_trans, killedOrSame_trans.
  - apply killTurn_entrywise.
Qed.

Lemma aims_entrywise ps ps' pk t :
  entrywise killedOrSame ps ps' -> (aims ps pk t <-> aims ps' pk t).
Proof.
  intros H.
  pose proof (entrywise_get _ _ _ pk H) as Hpk.
  pose proof (entrywise_get _ _ _ t H) as Ht.
  destruct (JsMap.get ps pk) as [p|] eqn:Ep, (JsMap.get ps' pk) as [p'|] eqn:Ep';
    try contradiction;
    [|split; intros (player & a & tgt & Hp & _); congruence].
  destruct (JsMap.get ps t) as [g|] eqn:Eg, (JsMap.get ps' t) as [g'|] eqn:Eg';
    try contradiction;
    [|split; intros (player & a & tgt & _ & _ & _ & _ & _ & Hgt & _); congruence].
  split; intros (player & a & tgt & Hp & Ha & Hk & Htg & Hne & Hgt & Himp & Hroom).
  - rewrite Ep in Hp. rewrite Eg in Hgt. injection Hp as <-. injection Hgt as <-.
    exists p', a, g'.
    destruct Hpk as [-> | ->], Ht as [-> | ->]; simpl; repeat split; auto.
  - rewrite Ep' in Hp. rewrite Eg' in Hgt. injection Hp as <-. injection Hgt as <-.
    exists p, a, g.
    destruct Hpk as [-> | ->], Ht as [-> | ->]; simpl in *; repeat split; auto.
Qed.

Lemma dead_entrywise ps ps' t :
  entrywise killedOrSame ps ps' -> dead ps t -> dead ps' t.
Proof.
  intros H (tgt & Hget & Hdead).
  pose proof (entrywise_get _ _ _ t H) as Ht. rewrite Hget in Ht.
  destruct (JsMap.get ps' t) as [tgt'|] eqn:E; [|contradiction].
  exists tgt'. split; auto. destruct Ht as [-> | ->]; auto.
Qed.

Lemma killTurn_hits ps pk t : aims ps pk t -> dead (killTurn ps pk) t.
Proof.
  intros Haims.
  destruct Haims as (player & a & tgt & Hp & Ha & Hk & Htg & Hne & Hgt & Himp & Hroom).
  unfold killTurn. rewrite Hp, Ha, Hk, Htg. simpl.
  assert (Hnb : (t =? "") = false) by now apply String.eqb_neq.
  rewrite Hnb, Hgt, Himp. simpl.
  destruct (isAlive tgt) eqn:Hal; simpl.
  - apply Z.eqb_eq in Hroom. rewrite Hroom.
    exists (setIsAlive false tgt). split; [apply JsMapFacts.get_set_same | reflexivity].
  - exists tgt. auto.
Qed.

(** A turn all of whose aims are dead already changes nothing. *)
Lemma killTurn_settled ps pk :
  (forall t, aims ps pk t -> dead ps t) -> killTurn ps pk = ps.
Proof.
  intros Hs.
  destruct (killTurn_cases ps pk) as [H | (t & tgt & Haims & Hget & Hal & _)]; auto.
  destruct (Hs t Haims) as (tgt' & Hget' & Hdead). congruence.
Qed.

Lemma fold_killTurn_hits ks ps :
  forall pk t, In pk ks ->
    aims (fold_left killTurn ks ps) pk t -> dead (fold_left killTurn ks ps) t.
Proof.
  revert ps. induction ks as [|k ks IH]; simpl; intros ps pk t Hin Haims; [contradiction|].
  destruct Hin as [-> | Hin]; [|eauto].
  pose proof (processKills_fold_entrywise ks (killTurn ps pk)) as Hrest.
  eapply dead_entrywise; [exact Hrest|].
  apply killTurn_hits.
  apply (aims_entrywise _ _ pk t (killTurn_entrywise ps pk)).
  apply (aims_entrywise _ _ pk t Hrest). exact Haims.
Qed.

Lemma fold_killTurn_settled ks ps :
  (forall pk t, In pk ks -> aims ps pk t -> dead ps t) ->
  fold_left killTurn ks ps = ps.
Proof.
  induction ks as [|k ks IH]; simpl; intros Hs; [reflexivity|].
  rewrite killTurn_settled by (intros t; apply Hs; auto).
  apply IH. intros pk t Hin. apply Hs. auto.
Qed.

Lemma processKills_keys ps : JsMap.keys (processKills ps) = JsMap.keys ps.
Proof.
  eapply entrywise_keys, processKills_fold_entrywise.
Qed.

Lemma processKills_fixpoint ps : processKills (processKills ps) = processKills ps.
Proof.
  unfold processKills at 1. rewrite processKills_keys.
  apply fold_killTurn_settled. intros pk t Hin.
  apply fold_killTurn_hits. exact Hin.
Qed.

(** C9. The elimination step is idempotent: running the kill loop of
    processRound a second time over the same stored decisions changes
    nothing at all, so every participant has the same alive flag after
    two applications as after one. *)
Theorem processKills_idempotent (ps : JsMap.t PlayerState) :
  processKills (processKills ps) = processKills ps /\
  forall k, aliveFlag (processKills (processKills ps)) k
            = aliveFlag (processKills ps) k.
Proof.
  split.
  - apply processKills_fixpoint.
  - intros k. now rewrite processKills_fixpoint.
Qed.

(** ** The broadcast only fills decision slots *)

Lemma slotsOnly_refl p : slotsOnly p p.
Proof. repeat split. Qed.

Lemma slotsOnly_trans p q r : slotsOnly p q -> slotsOnly q r -> slotsOnly p r.
Proof.
  intros (H1 & H2 & H3) (H4 & H5 & H6). repeat split; congruence.
Qed.

#[local] Hint Resolve slotsOnly_refl killedOrSame_refl : core.

Lemma collected_refl gs : collected gs gs.
Proof.
  constructor; auto. apply entrywise_refl; auto.
Qed.

Lemma collected_trans gs1 gs2 gs3 :
  collected gs1 gs2 -> collected gs2 gs3 -> collected gs1 gs3.
Proof.
  intros [] []. constructor; try congruence.
  - eapply entrywise_trans; eauto using slotsOnly_trans.
  - intros Hph. rewrite col_votes1 by congruence. auto.
Qed.

Lemma putPlayer_collected gs pk player p' :
  JsMap.get (players gs) pk = Some player -> slotsOnly player p' ->
  collected gs (putPlayer pk p' gs).
Proof.
  intros Hget Hs. constructor; simpl; auto.
  eapply entrywise_set; eauto.
Qed.

Lemma recordVote_collected gs k v :
  phase gs = voting -> collected gs (recordVote k v gs).
Proof.
  intros Hph. unfold recordVote.
  destruct (votingResults gs); [|apply collected_refl].
  constructor; simpl; auto.
  - apply entrywise_refl; auto.
  - intros Hne. contradiction.
Qed.

Lemma castVote_collected gs pk player d v :
  JsMap.get (players gs) pk = Some player -> phase gs = voting ->
  collected gs (recordVote pk v (putPlayer pk (setLastVote (Some d) player) gs)).
Proof.
  intros Hget Hph.
  apply collected_trans with (putPlayer pk (setLastVote (Some d) player) gs).
  - apply (putPlayer_collected gs pk player); [exact Hget | repeat split].
  - apply recordVote_collected. exact Hph.
Qed.

Lemma handleReply_collected gs pk responseData :
  collected gs (handleReply gs pk responseData).
Proof.
  unfold handleReply.
  destruct (JsMap.get (players gs) pk) as [player|] eqn:Hget; [|apply collected_refl].
  destruct (isAlive player); simpl; [|apply collected_refl].
  destruct (phase gs) eqn:Hph.
  - destruct (truthy (type responseData)); [|apply collected_refl].
    apply (putPlayer_collected gs pk player); [exact Hget | repeat split].
  - destruct (truthy (type responseData)); [|apply collected_refl].
    apply (putPlayer_collected gs pk player); [exact Hget | repeat split].
  - destruct (target responseData); [apply collected_refl| |];
      now apply castVote_collected.
  - apply collected_refl.
Qed.

Lemma handleSubscriber_collected e gs sub :
  collected gs (handleSubscriber e gs sub).
Proof.
  unfold handleSubscriber.
  destruct (status sub =? "active"); [|apply collected_refl].
  destruct (answer e (subscriber sub)); [|apply collected_refl].
  apply handleReply_collected.
Qed.

Lemma botTurn_collected e gs pk : collected gs (botTurn e gs pk).
Proof.
  unfold botTurn.
  destruct (JsMap.get (players gs) pk) as [player|] eqn:Hget; [|apply collected_refl].
  destruct (String.prefix "bot-" pk && isAlive player); [|apply collected_refl].
  destruct (makeBotDecision _ _ _) as [botDecision|]; [|apply collected_refl].
  destruct (phase gs) eqn:Hph.
  - apply (putPlayer_collected gs pk player); [exact Hget | repeat split].
  - apply (putPlayer_collected gs pk player); [exact Hget | repeat split].
  - now apply castVote_collected.
  - apply collected_refl.
Qed.

Lemma broadcastGameState_collected e gs : collected gs (broadcastGameState e gs).
Proof.
  unfold broadcastGameState.
  eapply collected_trans.
  - apply (fold_left_preorder collected (botTurn e));
      eauto using collected_refl, collected_trans, botTurn_collected.
  - apply (fold_left_preorder collected (handleSubscriber e));
      eauto using collected_refl, collected_trans, handleSubscriber_collected.
Qed.

(** ** The fallback policy *)

Lemma getPlayerView_yourRole gs pk player :
  JsMap.get (players gs) pk = Some player ->
  yourRole (getPlayerView gs pk) = Some (role player).
Proof.
  intros H. unfold getPlayerView. simpl. now rewrite H.
Qed.

Lemma impostor_view_roles gs pk player :
  JsMap.get (players gs) pk = Some player ->
  isImpostorRole (role player) = true ->
  Forall (fun p => pv_role p <> None) (view_players (getPlayerView gs pk)).
Proof.
  intros Hget Himp. unfold getPlayerView. simpl. rewrite Hget, Himp.
  apply Forall_forall. intros pv Hin.
  apply in_map_iff in Hin. destruct Hin as (p & <- & _). simpl. discriminate.
Qed.

Lemma potentialTargets_nil gameState yr :
  Forall (fun p => pv_role p <> None) (view_players gameState) ->
  potentialTargets gameState yr = [].
Proof.
  unfold potentialTargets. intros H.
  induction H as [|p l Hp _ IH]; simpl; [reflexivity|].
  destruct (pv_role p); [|contradiction].
  now rewrite andb_false_r.
Qed.

Lemma makeBotDecision_impostor_action gs pk player r1 r2 :
  JsMap.get (players gs) pk = Some player ->
  isImpostorRole (role player) = true ->
  phase gs = action ->
  makeBotDecision r1 r2 (getPlayerView gs pk) = Some pass.
Proof.
  intros Hget Himp Hph. unfold makeBotDecision.
  rewrite (getPlayerView_yourRole gs pk player Hget).
  replace (view_phase (getPlayerView gs pk)) with action
    by (unfold getPlayerView; simpl; congruence).
  rewrite (potentialTargets_nil _ (role player)
             (impostor_view_roles gs pk player Hget Himp)).
  simpl.
  destruct (isImpostorRole (role player) && Qltb r1 (3 # 10)); reflexivity.
Qed.

(** C10. A bot that holds the impostor role never produces a kill in the
    action phase: the view getPlayerView builds for an impostor carries a
    role on every player record, so the candidate filter of
    makeBotDecision (which asks for an absent role) selects nobody, and
    the decision is pass whatever the two random draws are. *)
Theorem impostor_bot_never_kills (gs : GameState) (pk : string)
  (player : PlayerState) (r1 r2 : Q) :
  JsMap.get (players gs) pk = Some player ->
  isImpostorRole (role player) = true ->
  Forall (fun p => pv_role p <> None) (view_players (getPlayerView gs pk)) /\
  potentialTargets (getPlayerView gs pk) (role player) = [] /\
  (phase gs = action ->
   makeBotDecision r1 r2 (getPlayerView gs pk) = Some pass).
Proof.
  intros Hget Himp.
  pose proof (impostor_view_roles gs pk player Hget Himp) as Hroles.
  repeat split; auto.
  - now apply potentialTargets_nil.
  - intros Hph. now apply (makeBotDecision_impostor_action gs pk player).
Qed.

(** Hence the bot loop of an action-phase broadcast stores pass for every
    live bot, impostor or not. *)
Lemma botTurn_action_pass e gs pk player :
  JsMap.get (players gs) pk = Some player ->
  phase gs = action ->
  String.prefix "bot-" pk = true -> isAlive player = true ->
  botTurn e gs pk = putPlayer pk (setLastAction (Some pass) player) gs.
Proof.
  intros Hget Hph Hbot Hal. unfold botTurn. rewrite Hget, Hbot, Hal. simpl.
  assert (Hd : makeBotDecision (fst (botRandom e pk)) (snd (botRandom e pk))
                 (getPlayerView gs pk) = Some pass).
  { destruct (isImpostorRole (role player)) eqn:Himp.
    - now apply (makeBotDecision_impostor_action gs pk player).
    - unfold makeBotDecision.
      rewrite (getPlayerView_yourRole gs pk player Hget).
      replace (view_phase (getPlayerView gs pk)) with action
        by (unfold getPlayerView; simpl; congruence).
      now rewrite Himp. }
  now rewrite Hd, Hph.
Qed.

(** ** The win check *)

Lemma filter_length_split {A : Type} (f : A -> bool) (l : list A) :
  (length (filter f l) + length (filter (fun x => negb (f x)) l) = length l)%nat.
Proof.
  induction l as [|x l IH]; simpl; [reflexivity|].
  destruct (f x); simpl; lia.
Qed.

Lemma filter_filter {A : Type} (f g : A -> bool) (l : list A) :
  filter f (filter g l) = filter (fun x => g x && f x) l.
Proof.
  induction l as [|x l IH]; simpl; [reflexivity|].
  destruct (g x); simpl; [destruct (f x)|]; now rewrite IH.
Qed.

Lemma aliveImpostors_count gs :
  aliveImpostors gs =
  Z.of_nat (length (filter (fun p => isAlive p && roleTypeEqb (role_type (role p)) impostor)
                           (JsMap.values (players gs)))).
Proof.
  unfold aliveImpostors, alivePlayers, isImpostorRole. now rewrite filter_filter.
Qed.

Lemma aliveCrew_count gs :
  aliveCrew gs =
  Z.of_nat (length (filter (fun p => isAlive p && roleTypeEqb (role_type (role p)) crewmate)
                           (JsMap.values (players gs)))).
Proof.
  unfold aliveCrew, aliveImpostors.
  pose proof (filter_length_split (fun p => isImpostorRole (role p)) (alivePlayers gs)) as H.
  replace (filter (fun p => isAlive p && roleTypeEqb (role_type (role p)) crewmate)
                  (JsMap.values (players gs)))
    with (filter (fun p => negb (isImpostorRole (role p))) (alivePlayers gs)).
  - lia.
  - unfold alivePlayers. rewrite filter_filter. apply filter_ext.
    intros p. unfold isImpostorRole. now destruct (role_type (role p)).
Qed.

Lemma aliveImpostors_nonneg gs : (0 <= aliveImpostors gs)%Z.
Proof. unfold aliveImpostors. lia. Qed.

Lemma aliveCrew_nonneg gs : (0 <= aliveCrew gs)%Z.
Proof. rewrite aliveCrew_count. lia. Qed.

(** The three outcomes of the check, by the two counts. *)
Lemma checkWinCondition_cases gs :
  (aliveImpostors gs = 0%Z /\ checkWinCondition gs = declareWinner crew gs) \/
  (aliveImpostors gs <> 0%Z /\ aliveCrew gs = 0%Z /\
   checkWinCondition gs = declareWinner impostors gs) \/
  (aliveImpostors gs <> 0%Z /\ aliveCrew gs <> 0%Z /\ checkWinCondition gs = gs).
Proof.
  unfold checkWinCondition.
  destruct (Z.eqb_spec (aliveImpostors gs) 0); [left; auto|].
  destruct (Z.eqb_spec (aliveCrew gs) 0); right; [left | right]; auto.
Qed.

Lemma checkWinCondition_players gs : players (checkWinCondition gs) = players gs.
Proof.
  destruct (checkWinCondition_cases gs) as [[_ ->] | [(_ & _ & ->) | (_ & _ & ->)]];
    reflexivity.
Qed.

Lemma checkWinCondition_phase gs : phase (checkWinCondition gs) = phase gs.
Proof.
  destruct (checkWinCondition_cases gs) as [[_ ->] | [(_ & _ & ->) | (_ & _ & ->)]];
    reflexivity.
Qed.

(** C3, as the code has it.  The check reads nothing but the alive flags
    and roles of the participants.  Started from a running game without a
    winner: crew wins (and the game stops) iff no impostor is alive;
    impostors win (and the game stops) iff no crewmate is alive while
    some impostor is; the state is left as it is iff both factions
    have a live member.  With nobody alive at all, crew wins. *)
Theorem checkWinCondition_verdict (gs : GameState) :
  isActive gs = true -> winner gs = None ->
  aliveImpostors gs =
    Z.of_nat (length (filter (fun p => isAlive p && roleTypeEqb (role_type (role p)) impostor)
                             (JsMap.values (players gs)))) /\
  aliveCrew gs =
    Z.of_nat (length (filter (fun p => isAlive p && roleTypeEqb (role_type (role p)) crewmate)
                             (JsMap.values (players gs)))) /\
  players (checkWinCondition gs) = players gs /\
  (isActive (checkWinCondition gs) = false /\ winner (checkWinCondition gs) = Some crew
   <-> aliveImpostors gs = 0%Z) /\
  (isActive (checkWinCondition gs) = false /\ winner (checkWinCondition gs) = Some impostors
   <-> aliveCrew gs = 0%Z /\ aliveImpostors gs <> 0%Z) /\
  (checkWinCondition gs = gs
   <-> aliveImpostors gs <> 0%Z /\ aliveCrew gs <> 0%Z).
Proof.
  intros Hact Hwin.
  split; [apply aliveImpostors_count|].
  split; [apply aliveCrew_count|].
  split; [apply checkWinCondition_players|].
  assert (Hne : forall w, declareWinner w gs <> gs).
  { intros w Heq. apply (f_equal isActive) in Heq. simpl in Heq. congruence. }
  destruct (checkWinCondition_cases gs)
    as [[Hi ->] | [(Hi & Hc & ->) | (Hi & Hc & ->)]]; simpl.
  - split; [tauto|]. split.
    + split; [intros [_ Hw]; discriminate | tauto].
    + split; [intros Heq; now apply Hne in Heq | tauto].
  - split; [|split].
    + split; [intros [_ Hw]; discriminate | tauto].
    + tauto.
    + split; [intros Heq; now apply Hne in Heq | tauto].
  - rewrite Hact, Hwin. split; [|split].
    + split; [intros [Hf _]; discriminate | tauto].
    + split; [intros [Hf _]; discriminate | tauto].
    + tauto.
Qed.

Lemma checkWinCondition_verdict_witness :
  isActive (resolveRound standoff) = true /\
  winner (resolveRound standoff) = None /\
  aliveCrew (resolveRound standoff) = 0%Z /\
  winner (checkWinCondition (resolveRound standoff)) = Some crew.
Proof.
  assert (Ha : isActive (resolveRound standoff) = true) by reflexivity.
  assert (Hw : winner (resolveRound standoff) = None) by reflexivity.
  destruct (checkWinCondition_verdict (resolveRound standoff) Ha Hw)
    as (_ & _ & _ & [_ Hcrew] & _).
  split; [exact Ha|]. split; [exact Hw|]. split; [reflexivity|].
  apply Hcrew. reflexivity.
Defined.

(** C3 as the claim words it fails when nobody is alive: both counts are
    zero, and the first branch gives the game to the crew.  After alice
    and bob (impostors in one room, the crew dead) kill each other, no
    crewmate is alive, yet the winner is not the impostors. *)
Lemma checkWinCondition_both_zero :
  aliveCrew (resolveRound standoff) = 0%Z /\
  aliveImpostors (resolveRound standoff) = 0%Z /\
  winner (checkWinCondition (resolveRound standoff)) = Some crew /\
  ~ (forall gs : GameState,
       isActive gs = true -> winner gs = None ->
       (isActive (checkWinCondition gs) = false /\
        winner (checkWinCondition gs) = Some impostors
        <-> aliveCrew gs = 0%Z)).
Proof.
  split; [reflexivity|]. split; [reflexivity|]. split; [reflexivity|].
  intros H.
  destruct (H (resolveRound standoff) eq_refl eq_refl) as [_ Hback].
  destruct (Hback eq_refl) as [_ Hw].
  vm_compute in Hw. discriminate.
Qed.

(** ** Phase entry points *)

Lemma startRound_cases e gs :
  (isActive gs = false /\ startRound e gs = gs) \/
  (isActive gs = true /\
   collected (setActionOrder (shuffleActionOrder e (setPhase action gs))
                             (setPhase action gs))
             (startRound e gs)).
Proof.
  unfold startRound. destruct (isActive gs); simpl; [right | left]; split; auto.
  apply broadcastGameState_collected.
Qed.

Lemma startRound_phase e gs :
  phase (startRound e gs) = if isActive gs then action else phase gs.
Proof.
  destruct (startRound_cases e gs) as [[-> ->] | [-> []]]; auto.
Qed.

Lemma startRound_isActive e gs : isActive (startRound e gs) = isActive gs.
Proof.
  destruct (startRound_cases e gs) as [[_ ->] | [_ []]]; auto.
Qed.

Lemma startRound_currentRound e gs : currentRound (startRound e gs) = currentRound gs.
Proof.
  destruct (startRound_cases e gs) as [[_ ->] | [_ []]]; auto.
Qed.

Lemma startRound_accusedPlayer e gs : accusedPlayer (startRound e gs) = accusedPlayer gs.
Proof.
  destruct (startRound_cases e gs) as [[_ ->] | [_ []]]; auto.
Qed.

Lemma startRound_votingResults e gs : votingResults (startRound e gs) = votingResults gs.
Proof.
  destruct (startRound_cases e gs) as [[_ ->] | [_ []]]; auto.
  rewrite col_votes0; [reflexivity | simpl; discriminate].
Qed.

Lemma startRound_players e gs :
  entrywise slotsOnly (players gs) (players (startRound e gs)).
Proof.
  destruct (startRound_cases e gs) as [[_ ->] | [_ []]]; auto.
  apply entrywise_refl; auto.
Qed.

(** ** processRound and processVotes *)

Lemma resolveRound_fields gs :
  phase (resolveRound gs) = phase gs /\
  currentRound (resolveRound gs) = currentRound gs /\
  accusedPlayer (resolveRound gs) = accusedPlayer gs /\
  votingResults (resolveRound gs) = votingResults gs /\
  isActive (resolveRound gs) = isActive gs /\
  winner (resolveRound gs) = winner gs.
Proof. repeat split. Qed.

Lemma eject_cases ejected gs :
  eject ejected gs = gs \/
  exists name player,
    ejected = Some name /\ name <> "" /\ name <> "skip" /\
    JsMap.get (players gs) name = Some player /\
    eject ejected gs = putPlayer name (setIsAlive false player) gs.
Proof.
  unfold eject. destruct ejected as [name|]; [|now left].
  destruct (String.eqb_spec name ""); simpl; [now left|].
  destruct (String.eqb_spec name "skip"); simpl; [now left|].
  destruct (JsMap.get (players gs) name) as [player|] eqn:Hget; [|now left].
  right. exists name, player. auto.
Qed.

Lemma eject_fields ejected gs :
  phase (eject ejected gs) = phase gs /\
  currentRound (eject ejected gs) = currentRound gs /\
  accusedPlayer (eject ejected gs) = accusedPlayer gs /\
  votingResults (eject ejected gs) = votingResults gs /\
  isActive (eject ejected gs) = isActive gs /\
  winner (eject ejected gs) = winner gs /\
  entrywise killedOrSame (players gs) (players (eject ejected gs)).
Proof.
  destruct (eject_cases ejected gs) as [-> | (name & player & _ & _ & _ & Hget & ->)].
  - repeat split. apply entrywise_refl; auto.
  - repeat split. simpl. eapply entrywise_set; eauto. now right.
Qed.

Lemma resolveVotes_fields gs r :
  resolveVotes gs = Some r ->
  phase r = phase gs /\ currentRound r = currentRound gs /\
  accusedPlayer r = accusedPlayer gs /\ votingResults r = votingResults gs /\
  isActive r = isActive gs /\ winner r = winner gs /\
  entrywise killedOrSame (players gs) (players r).
Proof.
  unfold resolveVotes. intros H.
  destruct (votingResults gs) as [results|] eqn:Hv; [|discriminate].
  destruct (accusedPlayer gs) as [accused|] eqn:Ha; [|discriminate].
  destruct (accused =? ""); [discriminate|].
  injection H as <-. rewrite <- Hv, <- Ha. apply eject_fields.
Qed.

(** After the win check of processRound / processVotes: a game that was
    stopped stays in the phase it was in; a game that goes on is taken
    to the action phase by startRound. *)
Lemma processRound_stopped e gs :
  isActive (checkWinCondition (resolveRound gs)) = false ->
  isActive (processRound e gs) = false /\ phase (processRound e gs) = phase gs.
Proof.
  intros H. unfold processRound. rewrite H.
  destruct (broadcastGameState_collected e (checkWinCondition (resolveRound gs))).
  rewrite col_phase0, col_active0, checkWinCondition_phase. auto.
Qed.

Lemma processRound_continues e gs :
  isActive (checkWinCondition (resolveRound gs)) = true ->
  isActive (processRound e gs) = true /\ phase (processRound e gs) = action /\
  currentRound (processRound e gs) = (currentRound gs + 1)%Z.
Proof.
  intros H. unfold processRound. rewrite H.
  rewrite startRound_isActive, startRound_phase, startRound_currentRound. simpl.
  rewrite H. repeat split.
  destruct (checkWinCondition_cases (resolveRound gs))
    as [[_ Hc] | [(_ & _ & Hc) | (_ & _ & Hc)]]; rewrite Hc; reflexivity.
Qed.

Lemma processVotes_stopped e gs r :
  resolveVotes gs = Some r ->
  isActive (checkWinCondition r) = false ->
  isActive (processVotes e gs) = false /\ phase (processVotes e gs) = phase gs.
Proof.
  intros Hr H. unfold processVotes. rewrite Hr. simpl. rewrite H.
  rewrite checkWinCondition_phase.
  destruct (resolveVotes_fields gs r Hr) as (-> & _). auto.
Qed.

Lemma processVotes_continues e gs r :
  resolveVotes gs = Some r ->
  isActive (checkWinCondition r) = true ->
  isActive (processVotes e gs) = true /\ phase (processVotes e gs) = action.
Proof.
  intros Hr H. unfold processVotes. rewrite Hr. simpl. rewrite H.
  rewrite startRound_isActive, startRound_phase, H. auto.
Qed.

Lemma winner_found_stops gs :
  aliveImpostors gs = 0%Z \/ aliveCrew gs = 0%Z ->
  isActive (checkWinCondition gs) = false.
Proof.
  intros H.
  destruct (checkWinCondition_cases gs)
    as [[_ ->] | [(_ & _ & ->) | (Hi & Hc & _)]]; auto. tauto.
Qed.

Lemma no_winner_goes_on gs :
  aliveImpostors gs <> 0%Z -> aliveCrew gs <> 0%Z ->
  isActive (checkWinCondition gs) = isActive gs.
Proof.
  intros Hi Hc.
  destruct (checkWinCondition_cases gs)
    as [[? _] | [(_ & ? & _) | (_ & _ & ->)]]; auto; contradiction.
Qed.

Lemma assignRoles_phase e l gs : phase (assignRoles e l gs) = phase gs.
Proof. reflexivity. Qed.

Lemma startGame_phase e gs :
  phase (startGame e gs) = if isActive gs then action else phase gs.
Proof.
  unfold startGame. rewrite startRound_phase. reflexivity.
Qed.

Lemma processVotes_phase e gs :
  phase (processVotes e gs) = phase gs \/ phase (processVotes e gs) = action.
Proof.
  unfold processVotes. destruct (resolveVotes gs) as [r|] eqn:Hr; [|now left].
  simpl. destruct (resolveVotes_fields gs r Hr) as (Hph & _).
  destruct (isActive (checkWinCondition r)) eqn:Ha.
  - rewrite startRound_phase, Ha. now right.
  - rewrite checkWinCondition_phase. now left.
Qed.

Lemma processRound_phase e gs :
  phase (processRound e gs) = phase gs \/ phase (processRound e gs) = action.
Proof.
  destruct (isActive (checkWinCondition (resolveRound gs))) eqn:Ha.
  - right. now apply processRound_continues.
  - left. now apply processRound_stopped.
Qed.

Lemma operation_never_complete gs gs' :
  operation gs gs' -> phase gs <> complete -> phase gs' <> complete.
Proof.
  intros Hop Hne. destruct Hop.
  - rewrite startGame_phase. destruct (isActive gs); [discriminate | assumption].
  - assumption.
  - rewrite startRound_phase. destruct (isActive gs); [discriminate | assumption].
  - unfold startMovementPhase.
    destruct (broadcastGameState_collected e (setPhase movement gs)) as [-> _].
    discriminate.
  - unfold startVotingPhase.
    match goal with |- phase (broadcastGameState ?e ?s) <> _ =>
      destruct (broadcastGameState_collected e s) as [-> _] end.
    discriminate.
  - destruct (processVotes_phase e gs) as [-> | ->]; [assumption | discriminate].
  - destruct (processRound_phase e gs) as [-> | ->]; [assumption | discriminate].
  - destruct (broadcastGameState_collected e gs) as [-> _]. assumption.
  - now rewrite checkWinCondition_phase.
Qed.

Lemma operations_never_complete gs gs' :
  operations gs gs' -> phase gs <> complete -> phase gs' <> complete.
Proof.
  induction 1; eauto using operation_never_complete.
Qed.

(** C4, as the code has it.  At the expiry of a movement phase
    (processRound) or of a voting phase (processVotes): when the win
    check finds a winner the game becomes inactive and the phase field
    keeps the value it had, the phase is not set to complete; when no
    winner is found and the game is running, the phase returns to action
    (processRound also increments the round).  No sequence of operations
    ever makes the phase complete. *)
Theorem phase_after_expiry (e : Env) (gs : GameState) :
  (aliveImpostors (resolveRound gs) = 0%Z \/ aliveCrew (resolveRound gs) = 0%Z ->
   isActive (processRound e gs) = false /\
   phase (processRound e gs) = phase gs) /\
  (aliveImpostors (resolveRound gs) <> 0%Z -> aliveCrew (resolveRound gs) <> 0%Z ->
   isActive gs = true ->
   isActive (processRound e gs) = true /\
   phase (processRound e gs) = action /\
   currentRound (processRound e gs) = (currentRound gs + 1)%Z) /\
  (forall r, resolveVotes gs = Some r ->
     (aliveImpostors r = 0%Z \/ aliveCrew r = 0%Z ->
      isActive (processVotes e gs) = false /\
      phase (processVotes e gs) = phase gs) /\
     (aliveImpostors r <> 0%Z -> aliveCrew r <> 0%Z -> isActive gs = true ->
      isActive (processVotes e gs) = true /\
      phase (processVotes e gs) = action)) /\
  (forall gs', operations gs gs' -> phase gs <> complete -> phase gs' <> complete).
Proof.
  split; [|split; [|split]].
  - intros H. apply processRound_stopped. now apply winner_found_stops.
  - intros Hi Hc Ha. apply processRound_continues.
    now rewrite no_winner_goes_on.
  - intros r Hr. split.
    + intros H. eapply processVotes_stopped; eauto. now apply winner_found_stops.
    + intros Hi Hc Ha. eapply processVotes_continues; eauto.
      rewrite no_winner_goes_on by assumption.
      now destruct (resolveVotes_fields gs r Hr) as (_ & _ & _ & _ & -> & _).
  - intros gs'. apply operations_never_complete.
Qed.

(** The game of [standoff] ends at the expiry of its movement phase and
    stays in that phase; the demo game goes on to a new round. *)
Lemma phase_after_expiry_witness :
  (isActive (processRound quietEnv standoff) = false /\
   phase (processRound quietEnv standoff) = movement) /\
  (isActive (processRound quietEnv (startMovementPhase quietEnv demoGame)) = true /\
   phase (processRound quietEnv (startMovementPhase quietEnv demoGame)) = action /\
   currentRound (processRound quietEnv (startMovementPhase quietEnv demoGame)) = 2%Z) /\
  (isActive (processVotes quietEnv demoVote) = true /\
   phase (processVotes quietEnv demoVote) = action).
Proof.
  split; [|split].
  - apply (phase_after_expiry quietEnv standoff). left. reflexivity.
  - apply (phase_after_expiry quietEnv (startMovementPhase quietEnv demoGame));
      vm_compute; congruence.
  - destruct (phase_after_expiry quietEnv demoVote) as (_ & _ & Hv & _).
    destruct (resolveVotes demoVote) as [r|] eqn:Hr; [|vm_compute in Hr; discriminate].
    apply (Hv r eq_refl).
    + vm_compute in Hr. injection Hr as <-. vm_compute. congruence.
    + vm_compute in Hr. injection Hr as <-. vm_compute. congruence.
    + reflexivity.
Defined.

(** C4 as the claim words it fails: the standoff game finds its winner at
    the expiry of the movement phase and the phase is still movement. *)
Lemma winner_found_phase_not_complete :
  phase standoff = movement /\
  isActive (processRound quietEnv standoff) = false /\
  winner (processRound quietEnv standoff) = Some crew /\
  phase (processRound quietEnv standoff) = movement /\
  ~ (forall (e : Env) (gs : GameState),
       isActive (processRound e gs) = false ->
       phase (processRound e gs) = complete).
Proof.
  repeat split.
  intros H. specialize (H quietEnv standoff eq_refl).
  vm_compute in H. discriminate.
Qed.

(** ** What the resolvers leave in place *)

Lemma processVotes_accusedPlayer e gs :
  accusedPlayer (processVotes e gs) = accusedPlayer gs.
Proof.
  unfold processVotes. destruct (resolveVotes gs) as [r|] eqn:Hr; [|reflexivity].
  simpl. destruct (resolveVotes_fields gs r Hr) as (_ & _ & Hacc & _).
  assert (Hc : accusedPlayer (checkWinCondition r) = accusedPlayer r).
  { destruct (checkWinCondition_cases r)
      as [[_ ->] | [(_ & _ & ->) | (_ & _ & ->)]]; reflexivity. }
  destruct (isActive (checkWinCondition r));
    [rewrite startRound_accusedPlayer|]; congruence.
Qed.

Lemma processVotes_votingResults e gs :
  votingResults (processVotes e gs) = votingResults gs.
Proof.
  unfold processVotes. destruct (resolveVotes gs) as [r|] eqn:Hr; [|reflexivity].
  simpl. destruct (resolveVotes_fields gs r Hr) as (_ & _ & _ & Hv & _).
  assert (Hc : votingResults (checkWinCondition r) = votingResults r).
  { destruct (checkWinCondition_cases r)
      as [[_ ->] | [(_ & _ & ->) | (_ & _ & ->)]]; reflexivity. }
  destruct (isActive (checkWinCondition r));
    [rewrite startRound_votingResults|]; congruence.
Qed.

Lemma startVotingPhase_forgets e accused old gs :
  startVotingPhase e accused (setVotingResults old gs)
  = startVotingPhase e accused gs.
Proof. reflexivity. Qed.

(** C5, as the code has it.  processVotes leaves the accused player and
    the recorded votes exactly as they were: nothing clears them after
    the vote is resolved.  startVotingPhase does reset the votes: it
    installs an empty map before it collects, so the votes it ends with
    do not depend on what was recorded before, and it sets the phase and
    the accused player. *)
Theorem votes_after_resolution (e : Env) (gs : GameState) :
  accusedPlayer (processVotes e gs) = accusedPlayer gs /\
  votingResults (processVotes e gs) = votingResults gs /\
  (forall accused,
     startVotingPhase e accused gs
     = broadcastGameState e
         (setVotingResults (Some JsMap.empty)
            (setAccusedPlayer (Some accused) (setPhase voting gs))) /\
     phase (startVotingPhase e accused gs) = voting /\
     accusedPlayer (startVotingPhase e accused gs) = Some accused /\
     forall old,
       startVotingPhase e accused (setVotingResults old gs)
       = startVotingPhase e accused gs).
Proof.
  split; [apply processVotes_accusedPlayer|].
  split; [apply processVotes_votingResults|].
  intros accused. split; [reflexivity|].
  unfold startVotingPhase at 1 2.
  match goal with |- phase (broadcastGameState ?e ?s) = _ /\ _ =>
    destruct (broadcastGameState_collected e s) as [Hph _ _ Hacc _ _ _ _] end.
  rewrite Hph, Hacc. split; [reflexivity|]. split; [reflexivity|].
  intros old. apply startVotingPhase_forgets.
Qed.

(** C5 as the claim words it fails: after the vote on bob is resolved
    the accused player is still bob and both votes are still recorded. *)
Lemma votes_not_cleared :
  resolveVotes demoVote <> None /\
  accusedPlayer (processVotes quietEnv demoVote) = Some "bob" /\
  votingResults (processVotes quietEnv demoVote)
  = Some [("alice", "bob"); ("bob", "alice")] /\
  ~ (forall (e : Env) (gs : GameState),
       resolveVotes gs <> None ->
       accusedPlayer (processVotes e gs) = None /\
       (votingResults (processVotes e gs) = None \/
        votingResults (processVotes e gs) = Some JsMap.empty)).
Proof.
  assert (Hres : resolveVotes demoVote <> None) by (vm_compute; discriminate).
  repeat split; auto.
  intros H. destruct (H quietEnv demoVote Hres) as [Hacc _].
  vm_compute in Hacc. discriminate.
Qed.

(** The slots after the three loops of processRound. *)

Lemma entrywise_compose (R1 R2 R3 : PlayerState -> PlayerState -> Prop) ps1 ps2 ps3 :
  (forall p q r, R1 p q -> R2 q r -> R3 p r) ->
  entrywise R1 ps1 ps2 -> entrywise R2 ps2 ps3 -> entrywise R3 ps1 ps3.
Proof.
  intros Hc H12. revert ps3.
  induction H12 as [|a b l1 l2 [Hk HR] _ IH]; intros ps3 H23; inversion H23; subst.
  - constructor.
  - constructor; [|apply IH; assumption].
    match goal with H : _ /\ _ |- _ => destruct H as [Hk' HR'] end.
    split; [congruence | eauto].
Qed.

Lemma resolved_after_kill p q :
  killedOrSame p q -> resolved p (clearRecords (movePlayer q)).
Proof.
  intros [-> | ->]; unfold resolved, movePlayer; simpl;
    destruct (lastMovement p) as [m|]; simpl; auto 10;
    destruct (strictEq (type m) "clockwise"); simpl; auto 10;
    destruct (strictEq (type m) "counterclockwise"); simpl; auto 10.
Qed.

Lemma resolveRound_entrywise gs :
  entrywise resolved (players gs) (players (resolveRound gs)).
Proof.
  unfold resolveRound. simpl.
  eapply entrywise_compose with
    (R1 := killedOrSame) (R2 := fun q r => r = clearRecords (movePlayer q)).
  - intros p q r Hk ->. now apply resolved_after_kill.
  - apply processKills_fold_entrywise.
  - eapply entrywise_compose with
      (R1 := fun q r => r = movePlayer q) (R2 := fun q r => r = clearRecords q).
    + intros p q r -> ->. reflexivity.
    + now apply entrywise_forEachValue.
    + now apply entrywise_forEachValue.
Qed.

Lemma resolveRound_keys gs :
  JsMap.keys (players (resolveRound gs)) = JsMap.keys (players gs).
Proof.
  unfold resolveRound. simpl.
  now rewrite !JsMapFacts.keys_forEachValue, processKills_keys.
Qed.

Lemma resolveRound_cleared gs :
  Forall (fun p => lastAction p = None /\ lastMovement p = None)
         (JsMap.values (players (resolveRound gs))).
Proof.
  unfold resolveRound. simpl. rewrite JsMapFacts.values_forEachValue.
  apply Forall_forall. intros q Hin. apply in_map_iff in Hin.
  destruct Hin as (p & <- & _). split; reflexivity.
Qed.

(** C6, as the code has it.  After the resolution step of processRound
    every participant has lastAction and lastMovement cleared, whether
    or not they were populated; lastVote is not cleared, it keeps the
    value it had.  The resolution step of processVotes clears no slot
    at all. *)
Theorem slots_after_resolution (gs : GameState) :
  Forall (fun p => lastAction p = None /\ lastMovement p = None)
         (JsMap.values (players (resolveRound gs))) /\
  (forall k, option_map lastVote (JsMap.get (players (resolveRound gs)) k)
             = option_map lastVote (JsMap.get (players gs) k)) /\
  (forall r, resolveVotes gs = Some r ->
     forall k,
       option_map (fun p => (lastAction p, lastMovement p, lastVote p))
                  (JsMap.get (players r) k)
       = option_map (fun p => (lastAction p, lastMovement p, lastVote p))
                    (JsMap.get (players gs) k)).
Proof.
  split; [apply resolveRound_cleared|]. split.
  - intros k. pose proof (entrywise_get _ _ _ k (resolveRound_entrywise gs)) as H.
    destruct (JsMap.get (players gs) k), (JsMap.get (players (resolveRound gs)) k);
      simpl; try contradiction; auto.
    destruct H as (_ & _ & _ & _ & _ & ->). reflexivity.
  - intros r Hr k.
    destruct (resolveVotes_fields gs r Hr) as (_ & _ & _ & _ & _ & _ & He).
    pose proof (entrywise_get _ _ _ k He) as H.
    destruct (JsMap.get (players gs) k), (JsMap.get (players r) k);
      simpl; try contradiction; auto.
    destruct H as [-> | ->]; reflexivity.
Qed.

Lemma slots_after_resolution_witness :
  option_map (fun p => (lastAction p, lastMovement p, lastVote p))
    (JsMap.get (players (eject (Some "bob") demoVote)) "alice")
  = Some (None, None, Some (vote "bob")).
Proof.
  destruct (slots_after_resolution demoVote) as (_ & _ & H).
  rewrite (H (eject (Some "bob") demoVote) eq_refl "alice").
  reflexivity.
Defined.

(** C6 as the claim words it fails: alice voted on bob; the vote is
    resolved, the next round runs its action and movement phases, and
    after its resolution step her lastVote is still there. *)
Lemma lastVote_not_cleared :
  option_map lastVote
    (JsMap.get
       (players
          (resolveRound
             (startMovementPhase quietEnv (processVotes quietEnv demoVote))))
       "alice")
  = Some (Some (vote "bob")) /\
  ~ (forall gs : GameState,
       Forall slotsCleared (JsMap.values (players (resolveRound gs)))).
Proof.
  split; [reflexivity|].
  intros H.
  specialize (H (startMovementPhase quietEnv (processVotes quietEnv demoVote))).
  vm_compute in H. inversion H as [|p l [_ [_ Hv]] _]. discriminate.
Qed.

(** ** Which kills the host lets through *)

Lemma processKills_hits ps pk t : aims ps pk t -> dead (processKills ps) t.
Proof.
  intros Haims. unfold processKills.
  apply (fold_killTurn_hits (JsMap.keys ps) ps pk t).
  - destruct Haims as (player & _ & _ & Hget & _).
    eapply JsMapFacts.get_in_keys; eauto.
  - apply (aims_entrywise _ _ pk t (processKills_fold_entrywise _ ps)). exact Haims.
Qed.

Lemma fold_killTurn_dead_inv ks ps t :
  dead (fold_left killTurn ks ps) t -> dead ps t \/ exists pk, aims ps pk t.
Proof.
  revert ps. induction ks as [|k ks IH]; simpl; intros ps Hd; [now left|].
  destruct (IH _ Hd) as [Hd' | [pk Ha]].
  - destruct (killTurn_cases ps k) as [Heq | (t' & tgt & Haims & Hget & Hal & Heq)];
      rewrite Heq in Hd'; [now left|].
    destruct (String.eqb_spec t' t) as [-> | Hne].
    + right. eauto.
    + left. destruct Hd' as (g & Hg & Hdead).
      rewrite JsMapFacts.get_set_other in Hg by assumption. exists g. auto.
  - right. exists pk. apply (aims_entrywise _ _ pk t (killTurn_entrywise ps k)). exact Ha.
Qed.

(** The kill loop in one sentence: a participant is dead after it iff
    they were dead before or some stored kill aimed at them passes the
    guards of the loop (impostor actor, same room).  The guards do not
    look at the role of the target, nor at whether it is the actor. *)
Lemma processKills_dead_iff ps t :
  dead (processKills ps) t <-> dead ps t \/ exists pk, aims ps pk t.
Proof.
  split.
  - apply fold_killTurn_dead_inv.
  - intros [Hd | [pk Ha]].
    + eapply dead_entrywise; [apply processKills_fold_entrywise | exact Hd].
    + eapply processKills_hits; eauto.
Qed.

(** The host downgrades a kill to pass only for an actor who is not an
    impostor. *)
Lemma handleReply_action_kill gs pk player t :
  JsMap.get (players gs) pk = Some player -> isAlive player = true ->
  phase gs = action ->
  handleReply gs pk (kill t)
  = putPlayer pk
      (setLastAction
         (Some (if isImpostorRole (role player) then kill t
                else setType (str "pass") (kill t)))
         player) gs.
Proof.
  intros Hget Hal Hph. unfold handleReply. rewrite Hget, Hal, Hph. simpl.
  now destruct (isImpostorRole (role player)).
Qed.

Lemma isAlive_movePlayer p : isAlive (movePlayer p) = isAlive p.
Proof.
  unfold movePlayer. destruct (lastMovement p) as [m|]; [|reflexivity].
  destruct (strictEq (type m) "clockwise"); [reflexivity|].
  destruct (strictEq (type m) "counterclockwise"); reflexivity.
Qed.

Lemma resolveRound_dead gs t :
  dead (processKills (players gs)) t ->
  aliveFlag (players (resolveRound gs)) t = Some false.
Proof.
  intros (g & Hg & Hd). unfold resolveRound, aliveFlag. simpl.
  rewrite !JsMapFacts.get_forEachValue, Hg. simpl.
  now rewrite isAlive_movePlayer, Hd.
Qed.

(** The participant side looks the target up by its publicKey field. *)
Lemma find_viewOf b ps t :
  keyed ps ->
  find (fun p => strictEq (str t) (pv_publicKey p)) (map (viewOf b) (JsMap.values ps))
  = option_map (viewOf b) (JsMap.get ps t).
Proof.
  intros Hk. induction Hk as [|[k p] ps Hkp _ IH]; simpl; [reflexivity|].
  simpl in Hkp. rewrite Hkp, (String.eqb_sym t k).
  destruct (k =? t); [reflexivity | exact IH].
Qed.

Lemma getPlayerView_players gs pk player :
  JsMap.get (players gs) pk = Some player ->
  view_players (getPlayerView gs pk)
  = map (viewOf (isImpostorRole (role player))) (JsMap.values (players gs)).
Proof.
  intros Hget. unfold getPlayerView. simpl. rewrite Hget. reflexivity.
Qed.

(** validateAction refuses a kill aimed at a participant the view shows
    as an impostor. *)
Lemma validateAction_refuses_impostor gs pk t player tgt :
  keyed (players gs) ->
  JsMap.get (players gs) pk = Some player ->
  isImpostorRole (role player) = true ->
  JsMap.get (players gs) t = Some tgt ->
  role_type (role tgt) = impostor ->
  validateAction "kill" (str t) (getPlayerView gs pk) = Some false.
Proof.
  intros Hk Hget Himp Ht Hrole. unfold validateAction.
  rewrite (getPlayerView_players gs pk player Hget), Himp.
  rewrite (find_viewOf true _ t Hk), Ht.
  destruct (JsMap.values (players gs)) as [|p0 l] eqn:Hv.
  - destruct (players gs); [discriminate | discriminate].
  - cbn [map]. destruct (strictEq (str t) (pv_publicKey (viewOf true p0)));
      [reflexivity|].
    rewrite String.eqb_refl. cbn [option_map viewOf]. now rewrite Hrole.
Qed.

(** C1, at the failing inputs.  A live impostor [pk] answers the action
    broadcast with a kill aimed at [t], any participant in the same
    room: [t] may be [pk] itself, and [t] may be an impostor.  The host
    stores the decision as it came (it is not downgraded to pass), and
    the resolution step of processRound marks [t] dead.  When [t] is an
    impostor, the participant-side validateAction refuses this very
    decision, and clientAction answers pass instead. *)
Theorem host_lets_impostor_kill_any_roommate (gs : GameState) (pk t : string)
  (player tgt : PlayerState) (text : JsString) :
  phase gs = action ->
  JsMap.get (players gs) pk = Some player ->
  isAlive player = true -> isImpostorRole (role player) = true ->
  t <> "" -> JsMap.get (players gs) t = Some tgt ->
  room (role tgt) = room (role player) ->
  option_map lastAction (JsMap.get (players (handleReply gs pk (kill t))) pk)
  = Some (Some (kill t)) /\
  aliveFlag (players (resolveRound (handleReply gs pk (kill t)))) t = Some false /\
  (keyed (players gs) -> role_type (role tgt) = impostor ->
   clientAction "kill" (str t) text (getPlayerView gs pk) = Some pass).
Proof.
  intros Hph Hget Hal Himp Hne Ht Hroom.
  rewrite (handleReply_action_kill gs pk player t Hget Hal Hph), Himp.
  cbn [players putPlayer setPlayers].
  split; [now rewrite JsMapFacts.get_set_same|]. split.
  - apply resolveRound_dead. cbn [players putPlayer setPlayers].
    apply (processKills_hits _ pk t).
    exists (setLastAction (Some (kill t)) player), (kill t).
    destruct (String.eqb_spec pk t) as [<- | Hpt].
    + exists (setLastAction (Some (kill pk)) player).
      rewrite JsMapFacts.get_set_same. repeat split; auto.
    + exists tgt. rewrite JsMapFacts.get_set_same.
      rewrite JsMapFacts.get_set_other by assumption.
      repeat split; auto.
  - intros Hk Hrole. unfold clientAction.
    now rewrite (validateAction_refuses_impostor gs pk t player tgt).
Qed.

Lemma host_lets_impostor_kill_any_roommate_witness :
  option_map (fun p => (role_type (role p), room (role p), isAlive p))
             (JsMap.get (players (newManager quietEnv)) "alice")
  = Some (impostor, 0%Z, true) /\
  option_map (fun p => (role_type (role p), room (role p), isAlive p))
             (JsMap.get (players (newManager quietEnv)) "bob")
  = Some (impostor, 0%Z, true) /\
  aliveFlag (players (resolveRound
                        (handleReply (newManager quietEnv) "alice" (kill "bob"))))
            "bob" = Some false /\
  aliveFlag (players (resolveRound
                        (handleReply (newManager quietEnv) "alice" (kill "alice"))))
            "alice" = Some false /\
  clientAction "kill" (str "bob") undefined
    (getPlayerView (newManager quietEnv) "alice") = Some pass.
Proof.
  split; [reflexivity|]. split; [reflexivity|].
  destruct (JsMap.get (players (newManager quietEnv)) "alice") as [alice|] eqn:Ha;
    [|vm_compute in Ha; discriminate].
  destruct (JsMap.get (players (newManager quietEnv)) "bob") as [bob|] eqn:Hb;
    [|vm_compute in Hb; discriminate].
  assert (Hra : role alice = mkRole impostor 0 /\ isAlive alice = true)
    by (vm_compute in Ha; injection Ha as <-; split; reflexivity).
  assert (Hrb : role bob = mkRole impostor 0)
    by (vm_compute in Hb; injection Hb as <-; reflexivity).
  destruct Hra as [Hra Hla].
  assert (Himp : isImpostorRole (role alice) = true) by now rewrite Hra.
  assert (Hbob : "bob" <> "") by discriminate.
  assert (Halice : "alice" <> "") by discriminate.
  assert (Hrooms : room (role bob) = room (role alice)) by now rewrite Hra, Hrb.
  destruct (host_lets_impostor_kill_any_roommate (newManager quietEnv)
              "alice" "bob" alice bob undefined eq_refl Ha Hla Himp Hbob Hb Hrooms)
    as (_ & Hdead & Hclient).
  destruct (host_lets_impostor_kill_any_roommate (newManager quietEnv)
              "alice" "alice" alice alice undefined eq_refl Ha Hla Himp Halice Ha eq_refl)
    as (_ & Hself & _).
  split; [exact Hdead|]. split; [exact Hself|].
  apply Hclient.
  - repeat constructor.
  - now rewrite Hrb.
Defined.

(** The same through the whole round of the demo game: alice's answer is
    collected by the constructor's first broadcast, the movement phase
    passes without an answer, and processRound kills bob. *)
Lemma demo_round_kills_bob :
  option_map lastAction (JsMap.get (players demoGame) "alice")
  = Some (Some (kill "bob")) /\
  aliveFlag (players demoGame) "bob" = Some true /\
  aliveFlag (players (processRound quietEnv (startMovementPhase quietEnv demoGame)))
            "bob" = Some false.
Proof. split; [reflexivity|]. split; reflexivity. Qed.

(** ** The vote tally *)

Lemma processVotes_players e gs r :
  resolveVotes gs = Some r ->
  entrywise slotsOnly (players r) (players (processVotes e gs)).
Proof.
  intros Hr. unfold processVotes. rewrite Hr. simpl.
  destruct (isActive (checkWinCondition r)).
  - rewrite <- (checkWinCondition_players r). apply startRound_players.
  - rewrite checkWinCondition_players. apply entrywise_refl; auto.
Qed.

Lemma aliveFlag_slotsOnly ps ps' k :
  entrywise slotsOnly ps ps' -> aliveFlag ps' k = aliveFlag ps k.
Proof.
  intros H. unfold aliveFlag. pose proof (entrywise_get _ _ _ k H) as Hk.
  destruct (JsMap.get ps k), (JsMap.get ps' k); simpl; try contradiction; auto.
  destruct Hk as (_ & _ & ->). reflexivity.
Qed.

(** C2, at the failing input, for every two-voter tie.  Two votes are
    recorded, for two different participants [a] and [b] (neither is the
    skip sentinel): each has one vote, a tie at the maximum.  The
    tally lists [a] before [b], the strict comparison of "Find highest
    vote count" keeps the first of them, and [a] is ejected. *)
Theorem two_way_tie_ejects_first_voted (e : Env) (gs : GameState)
  (v1 v2 a b accused : string) (player : PlayerState) :
  votingResults gs = Some [(v1, a); (v2, b)] ->
  accusedPlayer gs = Some accused -> accused <> "" ->
  a <> b -> a <> "" -> a <> "skip" -> b <> "skip" ->
  JsMap.get (players gs) a = Some player ->
  tally [(v1, a); (v2, b)] = [("skip", 0%Z); (a, 1%Z); (b, 1%Z)] /\
  highest (tally [(v1, a); (v2, b)]) = (1%Z, Some a) /\
  aliveFlag (players (processVotes e gs)) a = Some false.
Proof.
  intros Hv Hacc Hne Hab Ha Hask Hbsk Hget.
  assert (E1 : ("skip" =? a) = false) by (apply String.eqb_neq; congruence).
  assert (E2 : ("skip" =? b) = false) by (apply String.eqb_neq; congruence).
  assert (E3 : (a =? b) = false) by (apply String.eqb_neq; congruence).
  assert (Et : tally [(v1, a); (v2, b)] = [("skip", 0%Z); (a, 1%Z); (b, 1%Z)]).
  { unfold tally, countVote, JsMap.values, JsMap.empty.
    cbn [map snd fold_left JsMap.set JsMap.get].
    rewrite ?E1, ?E2, ?E3. cbn [JsMap.set JsMap.get].
    rewrite ?E1, ?E2, ?E3. cbn [JsMap.set JsMap.get].
    rewrite ?E1, ?E2, ?E3. reflexivity. }
  assert (Eh : highest (tally [(v1, a); (v2, b)]) = (1%Z, Some a))
    by (rewrite Et; reflexivity).
  split; [exact Et|]. split; [exact Eh|].
  assert (Hr : resolveVotes gs
               = Some (putPlayer a (setIsAlive false player) gs)).
  { unfold resolveVotes, eject. rewrite Hv, Hacc.
    apply String.eqb_neq in Hne, Ha, Hask. rewrite Hne, Eh.
    cbn [snd]. rewrite Ha, Hask. cbn [negb andb]. now rewrite Hget. }
  rewrite (aliveFlag_slotsOnly _ _ a (processVotes_players e gs _ Hr)).
  unfold aliveFlag. simpl. now rewrite JsMapFacts.get_set_same.
Qed.

Lemma two_way_tie_ejects_first_voted_witness :
  aliveFlag (players demoVote) "bob" = Some true /\
  aliveFlag (players demoVote) "alice" = Some true /\
  votingResults demoVote = Some [("alice", "bob"); ("bob", "alice")] /\
  aliveFlag (players (processVotes quietEnv demoVote)) "bob" = Some false.
Proof.
  split; [reflexivity|]. split; [reflexivity|]. split; [reflexivity|].
  destruct (JsMap.get (players demoVote) "bob") as [player|] eqn:Hget;
    [|vm_compute in Hget; discriminate].
  apply (two_way_tie_ejects_first_voted quietEnv demoVote
           "alice" "bob" "bob" "alice" "bob" player);
    try reflexivity; try discriminate; exact Hget.
Defined.

(** The ejected key, in general: the first key of the tally that reaches
    the maximum count, provided that maximum is positive. *)
Lemma highest_first_max (votes : JsMap.t Z) :
  (0 <= fst (highest votes))%Z /\
  Forall (fun tc => (snd tc <= fst (highest votes))%Z) votes /\
  match snd (highest votes) with
  | None => fst (highest votes) = 0%Z
  | Some t =>
      (0 < fst (highest votes))%Z /\
      exists l1 l2,
        votes = (l1 ++ (t, fst (highest votes)) :: l2)%list /\
        Forall (fun tc => (snd tc < fst (highest votes))%Z) l1
  end.
Proof.
  unfold highest.
  induction votes as [|[t c] votes IH] using rev_ind; simpl.
  - repeat split; [lia | constructor].
  - rewrite fold_left_app. simpl.
    destruct (fold_left _ votes (0%Z, None)) as [m w]. simpl in *.
    destruct IH as (Hm & Hall & Hw).
    destruct (Z.gtb_spec c m) as [Hgt | Hle]; simpl.
    + split; [lia|]. split.
      * apply Forall_app. split.
        -- eapply Forall_impl; [|exact Hall]. simpl. intros; lia.
        -- constructor; [simpl; lia | constructor].
      * split; [lia|]. exists votes, []. split; [reflexivity|].
        eapply Forall_impl; [|exact Hall]. simpl. intros; lia.
    + split; [lia|]. split.
      * apply Forall_app. split; [exact Hall|].
        constructor; [simpl; lia | constructor].
      * destruct w as [t'|]; [|exact Hw].
        destruct Hw as (Hpos & l1 & l2 & -> & Hl1).
        split; [exact Hpos|]. exists l1, (l2 ++ [(t, c)])%list.
        split; [|exact Hl1]. now rewrite <- List.app_assoc.
Qed.

(** ** Rooms *)

Lemma floorMul_range r n : unitDraw r -> (0 < n)%Z -> (0 <= floorMul r n < n)%Z.
Proof.
  intros [H0 H1] Hn. unfold floorMul.
  assert (Hlo : (0 <= r * inject_Z n)%Q).
  { apply Qmult_le_0_compat; [exact H0|].
    change 0%Q with (inject_Z 0). rewrite <- Zle_Qle. lia. }
  assert (Hhi : (r * inject_Z n < inject_Z n)%Q).
  { rewrite <- (Qmult_1_l (inject_Z n)) at 2.
    apply Qmult_lt_compat_r; [|exact H1].
    change 0%Q with (inject_Z 0). rewrite <- Zlt_Qlt. lia. }
  split.
  - rewrite <- (Qfloor_Z 0). apply Qfloor_resp_le. exact Hlo.
  - rewrite Zlt_Qlt. eapply Qle_lt_trans; [apply Qfloor_le | exact Hhi].
Qed.

Lemma rem_clockwise r : (0 <= r < 6)%Z -> Z.rem (r + 1) 6 = ((r + 1) mod 6)%Z.
Proof. intros H. apply Z.rem_mod_nonneg; lia. Qed.

Lemma rem_counterclockwise r :
  (0 <= r < 6)%Z -> Z.rem (r + 5) 6 = ((r - 1) mod 6)%Z.
Proof.
  intros H. rewrite Z.rem_mod_nonneg by lia.
  replace (r + 5)%Z with (r - 1 + 1 * 6)%Z by lia.
  apply Z.mod_add. lia.
Qed.

Lemma movePlayer_cases player :
  (movePlayer player = player /\
   (lastMovement player = None \/
    exists m, lastMovement player = Some m /\
              strictEq (type m) "clockwise" = false /\
              strictEq (type m) "counterclockwise" = false)) \/
  (exists m, lastMovement player = Some m /\
             strictEq (type m) "clockwise" = true /\
             movePlayer player = setRoom (Z.rem (room (role player) + 1) 6) player) \/
  (exists m, lastMovement player = Some m /\
             strictEq (type m) "counterclockwise" = true /\
             movePlayer player = setRoom (Z.rem (room (role player) + 5) 6) player).
Proof.
  unfold movePlayer. destruct (lastMovement player) as [m|]; [|left; auto].
  destruct (strictEq (type m) "clockwise") eqn:Ec.
  - right. left. eauto.
  - destruct (strictEq (type m) "counterclockwise") eqn:Ecc.
    + right. right. eauto.
    + left. split; auto. right. eauto.
Qed.

Lemma movePlayer_range player : roomInRange player -> roomInRange (movePlayer player).
Proof.
  unfold roomInRange. intros H.
  destruct (movePlayer_cases player)
    as [[-> _] | [(m & _ & _ & ->) | (m & _ & _ & ->)]]; simpl; auto.
  - rewrite rem_clockwise by assumption. apply Z.mod_pos_bound. lia.
  - rewrite rem_counterclockwise by assumption. apply Z.mod_pos_bound. lia.
Qed.


Lemma values_set_Forall {V : Type} (P : V -> Prop) (m : JsMap.t V) k v :
  Forall P (JsMap.values m) -> P v -> Forall P (JsMap.values (JsMap.set m k v)).
Proof.
  intros Hm Hv. induction m as [|[k0 v0] m IH]; simpl.
  - constructor; auto.
  - simpl in Hm. inversion Hm; subst.
    destruct (k0 =? k); simpl; constructor; auto.
Qed.

Lemma roomInRange_slotsOnly p q : slotsOnly p q -> roomInRange p -> roomInRange q.
Proof. intros (_ & Hr & _). unfold roomInRange. now rewrite Hr. Qed.

Lemma roomInRange_killedOrSame p q : killedOrSame p q -> roomInRange p -> roomInRange q.
Proof. intros [-> | ->]; auto. Qed.

Lemma roomInRange_resolved p q : resolved p q -> roomInRange p -> roomInRange q.
Proof.
  intros (_ & _ & Hr & _) H. unfold roomInRange. rewrite Hr.
  now apply movePlayer_range.
Qed.

Lemma broadcastGameState_rooms e gs :
  roomsInRange gs -> roomsInRange (broadcastGameState e gs).
Proof.
  unfold roomsInRange.
  eapply entrywise_values_Forall; [apply roomInRange_slotsOnly|].
  apply broadcastGameState_collected.
Qed.

Lemma startRound_rooms e gs : roomsInRange gs -> roomsInRange (startRound e gs).
Proof.
  unfold roomsInRange.
  eapply entrywise_values_Forall; [apply roomInRange_slotsOnly|].
  apply startRound_players.
Qed.

Lemma resolveRound_rooms gs : roomsInRange gs -> roomsInRange (resolveRound gs).
Proof.
  unfold roomsInRange.
  eapply entrywise_values_Forall; [apply roomInRange_resolved|].
  apply resolveRound_entrywise.
Qed.

Lemma checkWinCondition_rooms gs :
  roomsInRange gs -> roomsInRange (checkWinCondition gs).
Proof.
  unfold roomsInRange. now rewrite checkWinCondition_players.
Qed.

Lemma processRound_rooms e gs : roomsInRange gs -> roomsInRange (processRound e gs).
Proof.
  intros H. unfold processRound.
  pose proof (checkWinCondition_rooms _ (resolveRound_rooms gs H)) as Hc.
  destruct (isActive (checkWinCondition (resolveRound gs))).
  - apply startRound_rooms. exact Hc.
  - apply broadcastGameState_rooms. exact Hc.
Qed.

Lemma processVotes_rooms e gs : roomsInRange gs -> roomsInRange (processVotes e gs).
Proof.
  intros H. unfold processVotes.
  destruct (resolveVotes gs) as [r|] eqn:Hr; [|exact H]. simpl.
  assert (Hrr : roomsInRange r).
  { destruct (resolveVotes_fields gs r Hr) as (_ & _ & _ & _ & _ & _ & He).
    revert H. unfold roomsInRange.
    eapply entrywise_values_Forall; [apply roomInRange_killedOrSame | exact He]. }
  destruct (isActive (checkWinCondition r)).
  - apply startRound_rooms, checkWinCondition_rooms, Hrr.
  - apply checkWinCondition_rooms, Hrr.
Qed.

Lemma newPlayer_room e i k : fair e -> roomInRange (newPlayer e i k).
Proof.
  intros Hf. unfold roomInRange. simpl.
  apply floorMul_range; [apply (fair_room e Hf) | lia].
Qed.

Lemma assignRoles_rooms e l gs :
  fair e -> roomsInRange gs -> roomsInRange (assignRoles e l gs).
Proof.
  intros Hf H. unfold roomsInRange, assignRoles. simpl.
  apply (fold_left_invariant
           (fun m : JsMap.t PlayerState => Forall roomInRange (JsMap.values m)));
    [|exact H].
  intros m ik Hm. apply values_set_Forall; [exact Hm|].
  now apply newPlayer_room.
Qed.

Lemma startGame_rooms e gs :
  fair e -> roomsInRange gs -> roomsInRange (startGame e gs).
Proof.
  intros Hf H. unfold startGame. apply startRound_rooms.
  exact (assignRoles_rooms e _ gs Hf H).
Qed.

Lemma operation_rooms gs gs' :
  operation gs gs' -> roomsInRange gs -> roomsInRange gs'.
Proof.
  intros Hop H. destruct Hop.
  - now apply startGame_rooms.
  - now apply assignRoles_rooms.
  - now apply startRound_rooms.
  - unfold startMovementPhase. now apply broadcastGameState_rooms.
  - unfold startVotingPhase. now apply broadcastGameState_rooms.
  - now apply processVotes_rooms.
  - now apply processRound_rooms.
  - now apply broadcastGameState_rooms.
  - now apply checkWinCondition_rooms.
Qed.

Lemma operations_rooms gs gs' :
  operations gs gs' -> roomsInRange gs -> roomsInRange gs'.
Proof.
  induction 1; eauto using operation_rooms.
Qed.

Lemma newManager_rooms e : fair e -> roomsInRange (newManager e).
Proof.
  intros Hf. apply startGame_rooms; [exact Hf|]. constructor.
Qed.

(** C8.  For a participant whose room is in [0, 6): a stored clockwise
    movement takes the room to (room + 1) mod 6, a counterclockwise one
    to (room - 1) mod 6 (computed as (room + 5) % 6), and a stay, any
    other decision or no decision leaves the whole record as it is; the
    new room is again in [0, 6).  The resolution step of processRound
    applies exactly this to every participant.  Every game starts with
    all rooms in [0, 6), and every sequence of operations, under any
    answers and draws, keeps them there. *)
Theorem movement_keeps_rooms_in_range :
  (forall player, roomInRange player ->
     roomInRange (movePlayer player) /\
     (forall m, lastMovement player = Some m ->
                type m = str "clockwise" ->
                room (role (movePlayer player)) = ((room (role player) + 1) mod 6)%Z) /\
     (forall m, lastMovement player = Some m ->
                type m = str "counterclockwise" ->
                room (role (movePlayer player)) = ((room (role player) - 1) mod 6)%Z) /\
     (forall m, lastMovement player = Some m ->
                type m <> str "clockwise" -> type m <> str "counterclockwise" ->
                movePlayer player = player) /\
     (lastMovement player = None -> movePlayer player = player)) /\
  (forall gs k p, JsMap.get (players gs) k = Some p ->
     exists q, JsMap.get (players (resolveRound gs)) k = Some q /\
               room (role q) = room (role (movePlayer p))) /\
  (forall e, fair e -> roomsInRange (newManager e)) /\
  (forall gs gs', roomsInRange gs -> operations gs gs' -> roomsInRange gs').
Proof.
  split; [|split; [|split]].
  - intros player Hr. split; [now apply movePlayer_range|].
    unfold movePlayer. repeat split.
    + intros m -> Ht. rewrite Ht. simpl. now apply rem_clockwise.
    + intros m -> Ht. rewrite Ht. simpl. now apply rem_counterclockwise.
    + intros m -> Hc Hcc.
      destruct (type m) as [| |s]; simpl; auto.
      destruct (String.eqb_spec s "clockwise"); [congruence|].
      destruct (String.eqb_spec s "counterclockwise"); [congruence|]. reflexivity.
    + intros ->. reflexivity.
  - intros gs k p Hget.
    pose proof (entrywise_get _ _ _ k (resolveRound_entrywise gs)) as H.
    rewrite Hget in H.
    destruct (JsMap.get (players (resolveRound gs)) k) as [q|]; [|contradiction].
    exists q. split; [reflexivity|]. now destruct H as (_ & _ & -> & _).
  - apply newManager_rooms.
  - intros gs gs' H Hops. eapply operations_rooms; eauto.
Qed.

(** ** Padding with bots *)

Lemma padBots_step l :
  padBots l = if lt_dec (length l) 6
              then padBots (l ++ [botName (length l + 1)])%list
              else l.
Proof.
  rewrite padBots_equation_1. destruct (lt_dec (length l) 6); reflexivity.
Qed.

(** The loop ends, with the pool followed by the bot names that were
    missing to make six. *)
Lemma padBots_spec l :
  padBots l = (l ++ map botName (seq (length l + 1) (6 - length l)))%list.
Proof.
  remember (6 - length l)%nat as n eqn:Hn. revert l Hn.
  induction n as [|n IH]; intros l Hn; rewrite padBots_step.
  - destruct (lt_dec (length l) 6); [exfalso; lia|]. simpl. now rewrite List.app_nil_r.
  - destruct (lt_dec (length l) 6); [|exfalso; lia].
    rewrite IH by (rewrite List.length_app; simpl length; lia).
    rewrite List.length_app. simpl length. rewrite <- List.app_assoc. simpl app.
    replace (length l + 1 + 1)%nat with (S (length l + 1)) by lia. reflexivity.
Qed.

Lemma padBots_length l : (6 <= length (padBots l))%nat.
Proof.
  rewrite padBots_spec, length_app, length_map, length_seq. lia.
Qed.

Lemma to_uint_nonnil n : Nat.to_uint n <> Decimal.Nil.
Proof.
  rewrite <- (Unsigned.of_to n) at 1. rewrite Unsigned.to_of. apply unorm_nonnil.
Qed.

Lemma botName_inj : Injective botName.
Proof.
  intros n m H. unfold botName in H. simpl in H. injection H as H.
  apply (f_equal NilZero.uint_of_string) in H.
  rewrite !NilZero.usu in H by apply to_uint_nonnil.
  injection H as H. apply (f_equal Nat.of_uint) in H.
  now rewrite !Unsigned.of_to in H.
Qed.

Lemma botName_prefix n : String.prefix "bot-" (botName n) = true.
Proof.
  unfold botName. cbn [String.append String.prefix].
  destruct (NilZero.string_of_uint (Nat.to_uint n)); reflexivity.
Qed.

(** A pool of distinct ids none of which looks like a bot name is padded
    without a repeated id. *)
Lemma padBots_NoDup l :
  NoDup l -> Forall (fun k => String.prefix "bot-" k = false) l ->
  NoDup (padBots l).
Proof.
  intros Hnd Hreal. rewrite padBots_spec. apply NoDup_app.
  - exact Hnd.
  - apply Injective_map_NoDup; [apply botName_inj | apply seq_NoDup].
  - intros k Hin Hbot. apply in_map_iff in Hbot. destruct Hbot as (n & <- & _).
    rewrite Forall_forall in Hreal. specialize (Hreal _ Hin).
    rewrite botName_prefix in Hreal. discriminate.
Qed.

(** ** assignRoles *)

Lemma seats_cons e s k sh :
  seats e s (k :: sh) = (k, newPlayer e s k) :: seats e (S s) sh.
Proof. reflexivity. Qed.

Lemma assignRoles_fold_fresh e sh :
  forall s (m : JsMap.t PlayerState),
    NoDup sh -> (forall k, In k sh -> JsMap.get m k = None) ->
    fold_left (fun m ik => JsMap.set m (snd ik) (newPlayer e (fst ik) (snd ik)))
              (combine (seq s (length sh)) sh) m
    = (m ++ seats e s sh)%list.
Proof.
  induction sh as [|k sh IH]; intros s m Hnd Hfresh.
  - simpl. now rewrite List.app_nil_r.
  - inversion Hnd as [|? ? Hk Hnd']; subst.
    rewrite seats_cons. simpl length. simpl seq. simpl combine. simpl fold_left.
    rewrite JsMapFacts.set_absent by (apply Hfresh; now left).
    rewrite IH; [now rewrite <- List.app_assoc | exact Hnd' |].
    intros k' Hin. rewrite JsMapFacts.get_app_absent.
    rewrite Hfresh by now right.
    destruct (String.eqb_spec k k'); [subst; contradiction | reflexivity].
Qed.

Lemma seats_keys e sh : forall s, JsMap.keys (seats e s sh) = sh.
Proof.
  induction sh as [|k sh IH]; intros s; [reflexivity|].
  rewrite seats_cons. unfold JsMap.keys in *. simpl. now rewrite IH.
Qed.

Lemma seats_length e sh : forall s, length (seats e s sh) = length sh.
Proof.
  intros s. rewrite <- (seats_keys e sh s) at 2. unfold JsMap.keys.
  now rewrite length_map.
Qed.

Lemma seats_fresh e sh :
  forall s, fair e ->
    Forall (fun p => isAlive p = true /\ roomInRange p /\ slotsCleared p)
           (JsMap.values (seats e s sh)).
Proof.
  induction sh as [|k sh IH]; intros s Hf; [constructor|].
  rewrite seats_cons. simpl. constructor; [|now apply IH].
  split; [reflexivity|]. split; [now apply newPlayer_room | repeat split].
Qed.

Lemma seats_later_crew e sh :
  forall s, (2 <= s)%nat ->
    countRole impostor (seats e s sh) = 0%nat /\
    countRole crewmate (seats e s sh) = length sh.
Proof.
  induction sh as [|k sh IH]; intros s Hs; [split; reflexivity|].
  rewrite seats_cons. destruct (IH (S s)) as [Hi Hc]; [lia|].
  unfold countRole in *. simpl.
  destruct (Nat.ltb_spec s 2) as [Hlt|_]; [lia|]. simpl.
  rewrite Hi, Hc. auto.
Qed.

Lemma seats_two_impostors e sh :
  (2 <= length sh)%nat ->
  countRole impostor (seats e 0 sh) = 2%nat /\
  countRole crewmate (seats e 0 sh) = (length sh - 2)%nat.
Proof.
  destruct sh as [|a [|b sh]]; simpl length; try lia. intros _.
  rewrite !seats_cons. destruct (seats_later_crew e sh 2) as [Hi Hc]; [lia|].
  unfold countRole in *. simpl. rewrite Hi, Hc. split; [reflexivity | lia].
Qed.

Lemma assignRoles_initial e l :
  NoDup (sortRandom e l) ->
  players (assignRoles e l initializeGameState) = seats e 0 (sortRandom e l).
Proof.
  intros Hnd. unfold assignRoles. simpl.
  now rewrite assignRoles_fold_fresh by auto.
Qed.

Lemma assignRoles_distinct_pool (e : Env) (candidates : list string) :
  fair e -> NoDup (padBots candidates) ->
  (6 <= length (padBots candidates))%nat /\
  Permutation (padBots candidates)
    (JsMap.keys (players (assignRoles e (padBots candidates) initializeGameState))) /\
  countRole impostor
    (players (assignRoles e (padBots candidates) initializeGameState)) = 2%nat /\
  countRole crewmate
    (players (assignRoles e (padBots candidates) initializeGameState))
  = (length (padBots candidates) - 2)%nat /\
  Forall (fun p => isAlive p = true /\ roomInRange p /\ slotsCleared p)
    (JsMap.values (players (assignRoles e (padBots candidates) initializeGameState))).
Proof.
  intros Hf Hnd.
  pose proof (fair_sort e Hf (padBots candidates)) as Hperm.
  pose proof (padBots_length candidates) as Hlen.
  assert (Hnd' : NoDup (sortRandom e (padBots candidates)))
    by (eapply Permutation_NoDup; eauto).
  rewrite (assignRoles_initial e _ Hnd').
  assert (Hlen' : length (sortRandom e (padBots candidates))
                  = length (padBots candidates))
    by (symmetry; now apply Permutation_length).
  destruct (seats_two_impostors e (sortRandom e (padBots candidates))) as [Hi Hc];
    [lia|].
  split; [exact Hlen|]. split; [now rewrite seats_keys|].
  split; [exact Hi|]. split; [now rewrite Hc, Hlen'|].
  now apply seats_fresh.
Qed.

(** X14.  Role assignment on a pool without a repeated id.  The padded
    pool has at least six ids; when no id occurs twice in it, assignRoles
    makes one participant of each id, exactly two of them impostors and
    all the others crewmates, every one alive, in a room in [0, 6) and
    with empty decision slots.  (A pool of distinct ids none of which
    starts with bot- is padded without repetition: padBots_NoDup.) *)
Theorem assignRoles_two_impostors (e : Env) (candidates : list string) :
  fair e -> NoDup (padBots candidates) ->
  (6 <= length (padBots candidates))%nat /\
  Permutation (padBots candidates)
    (JsMap.keys (players (assignRoles e (padBots candidates) initializeGameState))) /\
  countRole impostor
    (players (assignRoles e (padBots candidates) initializeGameState)) = 2%nat /\
  countRole crewmate
    (players (assignRoles e (padBots candidates) initializeGameState))
  = (length (padBots candidates) - 2)%nat /\
  Forall (fun p => isAlive p = true /\ roomInRange p /\ slotsCleared p)
    (JsMap.values (players (assignRoles e (padBots candidates) initializeGameState))).
Proof.
  apply assignRoles_distinct_pool.
Qed.


(** The assignment survives the first broadcast: the game the constructor
    returns has the same two impostors. *)
Lemma countRole_slotsOnly r ps ps' :
  entrywise slotsOnly ps ps' -> countRole r ps' = countRole r ps.
Proof.
  intros H. unfold countRole.
  induction H as [|a b l1 l2 [_ (_ & Hr & _)] _ IH]; simpl; [reflexivity|].
  rewrite Hr. destruct (roleTypeEqb (role_type (role (snd a))) r); simpl; auto.
Qed.

Lemma newManager_two_impostors e :
  fair e ->
  NoDup (padBots (map subscriber
                      (filter (fun sub => status sub =? "active") (getSubscribers e)))) ->
  countRole impostor (players (newManager e)) = 2%nat /\
  Forall (fun p => isAlive p = true /\ roomInRange p)
         (JsMap.values (players (newManager e))).
Proof.
  intros Hf Hnd.
  destruct (assignRoles_distinct_pool e _ Hf Hnd) as (_ & _ & Hi & _ & Hall).
  pose proof (startRound_players e
    (setActionOrder
       (shuffleActionOrder e
          (assignRoles e
             (padBots (map subscriber
                (filter (fun sub => status sub =? "active") (getSubscribers e))))
             initializeGameState))
       (assignRoles e
          (padBots (map subscriber
             (filter (fun sub => status sub =? "active") (getSubscribers e))))
          initializeGameState))) as He.
  simpl players in He at 1.
  split.
  - unfold newManager, startGame. rewrite (countRole_slotsOnly _ _ _ He). exact Hi.
  - unfold newManager, startGame.
    eapply entrywise_values_Forall; [|exact He|].
    + intros p q (_ & Hr & Ha) (Hal & Hroom). split; [congruence|].
      unfold roomInRange. now rewrite Hr.
    + eapply Forall_impl; [|exact Hall]. simpl. tauto.
Qed.

(** ** The example environments are fair *)

Lemma demoDraw_unit i : unitDraw (demoDraw i).
Proof.
  unfold unitDraw, demoDraw, Qle, Qlt. cbn [Qnum Qden].
  pose proof (Nat.mod_upper_bound i 12). lia.
Qed.

Lemma fair_demo subs ans :
  fair (mkEnv subs ans (fun l => l) demoDraw (fun _ => ((1 # 10)%Q, (1 # 2)%Q))).
Proof.
  constructor; simpl.
  - intros l. apply Permutation_refl.
  - apply demoDraw_unit.
  - intros _. unfold unitDraw, Qle, Qlt. simpl. lia.
Qed.

Lemma assignRoles_two_impostors_witness :
  fair quietEnv /\
  NoDup (padBots ["alice"; "bob"]) /\
  countRole impostor
    (players (assignRoles quietEnv (padBots ["alice"; "bob"]) initializeGameState))
  = 2%nat.
Proof.
  assert (Hf : fair quietEnv) by apply fair_demo.
  assert (Hnd : NoDup (padBots ["alice"; "bob"])).
  { apply padBots_NoDup.
    - repeat constructor; simpl; intuition discriminate.
    - repeat constructor. }
  split; [exact Hf|]. split; [exact Hnd|].
  apply (assignRoles_two_impostors quietEnv ["alice"; "bob"] Hf Hnd).
Defined.

(** C7, at the failing input.  The claim asks for exactly two impostors
    for any candidate list, and the code says "Assign 2 impostors and
    rest as crew"; for a pool with a repeated id it does not: the second
    [set] of the id overwrites the first.  With alice listed twice (and
    a sort that leaves the order alone) both impostor seats go to alice,
    and the game has one impostor among five participants. *)
Theorem repeated_id_one_impostor :
  fair quietEnv /\
  padBots ["alice"; "alice"; "bob"]
  = ["alice"; "alice"; "bob"; "bot-4"; "bot-5"; "bot-6"] /\
  countRole impostor
    (players (assignRoles quietEnv (padBots ["alice"; "alice"; "bob"])
                initializeGameState)) = 1%nat /\
  length (players (assignRoles quietEnv (padBots ["alice"; "alice"; "bob"])
                     initializeGameState)) = 5%nat /\
  ~ (forall (e : Env) (candidates : list string),
       fair e ->
       countRole impostor
         (players (assignRoles e (padBots candidates) initializeGameState)) = 2%nat).
Proof.
  assert (Hf : fair quietEnv) by apply fair_demo.
  split; [exact Hf|]. split; [reflexivity|]. split; [reflexivity|].
  split; [reflexivity|].
  intros H. specialize (H quietEnv ["alice"; "alice"; "bob"] Hf).
  vm_compute in H. discriminate.
Qed.

Lemma movement_keeps_rooms_in_range_witness :
  roomsInRange (processRound quietEnv (startMovementPhase moveEnv demoGame)) /\
  option_map (fun p => room (role p))
    (JsMap.get (players (startMovementPhase moveEnv demoGame)) "bob") = Some 0%Z /\
  option_map (fun p => room (role p))
    (JsMap.get (players (resolveRound (startMovementPhase moveEnv demoGame))) "bob")
  = Some 5%Z /\
  room (role (movePlayer
                (mkPlayer "bob" (mkRole impostor 0) true None
                   (Some (mkDecision (str "counterclockwise") undefined
                            undefined undefined)) None))) = 5%Z.
Proof.
  destruct movement_keeps_rooms_in_range as (Hmove & Hres & Hnew & Hops).
  split; [|split; [reflexivity|split]].
  - apply (Hops demoGame).
    + apply Hnew. apply fair_demo.
    + eapply ops_step; [apply op_startMovementPhase|].
      eapply ops_step; [apply op_processRound|]. apply ops_done.
  - destruct (JsMap.get (players (startMovementPhase moveEnv demoGame)) "bob")
      as [bob|] eqn:Hget; [|vm_compute in Hget; discriminate].
    destruct (Hres _ _ _ Hget) as (q & Hq & Hroom).
    rewrite Hq. cbn [option_map]. rewrite Hroom.
    vm_compute in Hget. injection Hget as <-. reflexivity.
  - assert (Hin : roomInRange
                    (mkPlayer "bob" (mkRole impostor 0) true None
                       (Some (mkDecision (str "counterclockwise") undefined
                                undefined undefined)) None))
      by (unfold roomInRange; simpl; lia).
    destruct (Hmove _ Hin) as (_ & _ & Hcc & _).
    rewrite (Hcc _ eq_refl eq_refl). reflexivity.
Defined.

Lemma impostor_bot_never_kills_witness :
  option_map (fun p => role_type (role p))
    (JsMap.get (players (newManager botsEnv)) "bot-1") = Some impostor /\
  phase (newManager botsEnv) = action /\
  makeBotDecision (1 # 10)%Q (1 # 2)%Q (getPlayerView (newManager botsEnv) "bot-1")
  = Some pass.
Proof.
  split; [reflexivity|]. split; [reflexivity|].
  destruct (JsMap.get (players (newManager botsEnv)) "bot-1") as [player|] eqn:Hget;
    [|vm_compute in Hget; discriminate].
  apply (impostor_bot_never_kills (newManager botsEnv) "bot-1" player).
  - exact Hget.
  - vm_compute in Hget. injection Hget as <-. reflexivity.
  - reflexivity.
Defined.

(** ** Records are stored under their own key *)

Lemma keyed_set ps k p :
  keyed ps -> publicKey p = k -> keyed (JsMap.set ps k p).
Proof.
  intros Hk Hp. induction Hk as [|[k0 p0] ps Hkp Htl IH]; simpl.
  - constructor; [exact Hp | constructor].
  - destruct (String.eqb_spec k0 k) as [-> | Hne].
    + constructor; [exact Hp | exact Htl].
    + constructor; [exact Hkp | exact IH].
Qed.

Lemma keyed_entrywise R ps ps' :
  (forall p q, R p q -> publicKey q = publicKey p) ->
  entrywise R ps ps' -> keyed ps -> keyed ps'.
Proof.
  intros HR H. unfold keyed.
  induction H as [|a b l1 l2 [Hk Hab] _ IH]; intros Hkeyed.
  - constructor.
  - inversion Hkeyed as [|? ? Ha Htl]; subst. constructor.
    + rewrite (HR _ _ Hab), <- Hk. exact Ha.
    + apply IH. exact Htl.
Qed.

Lemma slotsOnly_publicKey p q : slotsOnly p q -> publicKey q = publicKey p.
Proof. now intros (H & _). Qed.

Lemma killedOrSame_publicKey p q : killedOrSame p q -> publicKey q = publicKey p.
Proof. intros [-> | ->]; reflexivity. Qed.

Lemma resolved_publicKey p q : resolved p q -> publicKey q = publicKey p.
Proof. now intros (H & _). Qed.

Lemma assignRoles_keyed e l gs : keyed (players gs) -> keyed (players (assignRoles e l gs)).
Proof.
  intros H. unfold assignRoles. simpl.
  apply (fold_left_invariant keyed); [|exact H].
  intros m ik Hm. now apply keyed_set.
Qed.

Lemma operation_keyed gs gs' :
  operation gs gs' -> keyed (players gs) -> keyed (players gs').
Proof.
  intros Hop H. destruct Hop.
  - unfold startGame.
    eapply keyed_entrywise; [apply slotsOnly_publicKey | apply startRound_players |].
    simpl. now apply assignRoles_keyed.
  - now apply assignRoles_keyed.
  - eapply keyed_entrywise; [apply slotsOnly_publicKey | apply startRound_players | exact H].
  - unfold startMovementPhase.
    eapply keyed_entrywise;
      [apply slotsOnly_publicKey | apply broadcastGameState_collected | exact H].
  - unfold startVotingPhase.
    eapply keyed_entrywise;
      [apply slotsOnly_publicKey | apply broadcastGameState_collected | exact H].
  - destruct (resolveVotes gs) as [r|] eqn:Hr;
      [|unfold processVotes; rewrite Hr; exact H].
    eapply keyed_entrywise;
      [apply slotsOnly_publicKey | apply (processVotes_players e gs r Hr) |].
    destruct (resolveVotes_fields gs r Hr) as (_ & _ & _ & _ & _ & _ & He).
    eapply keyed_entrywise; [apply killedOrSame_publicKey | exact He | exact H].
  - assert (Hr : keyed (players (checkWinCondition (resolveRound gs)))).
    { rewrite checkWinCondition_players.
      eapply keyed_entrywise;
        [apply resolved_publicKey | apply resolveRound_entrywise | exact H]. }
    unfold processRound.
    destruct (isActive (checkWinCondition (resolveRound gs))).
    + eapply keyed_entrywise;
        [apply slotsOnly_publicKey | apply startRound_players | exact Hr].
    + eapply keyed_entrywise;
        [apply slotsOnly_publicKey | apply broadcastGameState_collected | exact Hr].
  - eapply keyed_entrywise;
      [apply slotsOnly_publicKey | apply broadcastGameState_collected | exact H].
  - now rewrite checkWinCondition_players.
Qed.

(** Every state the manager can reach keeps its records under their own
    keys. *)
Lemma operations_keyed gs gs' :
  operations gs gs' -> keyed (players gs) -> keyed (players gs').
Proof.
  induction 1; eauto using operation_keyed.
Qed.

Lemma initializeGameState_keyed : keyed (players initializeGameState).
Proof. constructor. Qed.

(** * Further properties of the engine *)

(** ** The kill loop, in general *)

Lemma aliveFlag_false_dead ps t : aliveFlag ps t = Some false <-> dead ps t.
Proof.
  unfold aliveFlag, dead. split.
  - destruct (JsMap.get ps t) as [g|]; simpl; [|discriminate].
    intros H. injection H as H. eauto.
  - intros (g & -> & Hd). simpl. now rewrite Hd.
Qed.

Lemma resolveRound_aliveFlag gs t :
  aliveFlag (players (resolveRound gs)) t = aliveFlag (processKills (players gs)) t.
Proof.
  unfold resolveRound, aliveFlag. simpl.
  rewrite !JsMapFacts.get_forEachValue.
  destruct (JsMap.get (processKills (players gs)) t) as [g|]; simpl; [|reflexivity].
  now rewrite isAlive_movePlayer.
Qed.

(** X1.  The kill step of processRound, as a whole: a participant is dead
    after the resolution step iff they were dead before it, or some
    participant holds a stored kill aimed at them, is an impostor, and
    was in their room before the moves of this round were applied.  No
    other condition enters: not the actor being alive, not the role of
    the target. *)
Theorem resolveRound_dead_iff (gs : GameState) (t : string) :
  aliveFlag (players (resolveRound gs)) t = Some false <->
  dead (players gs) t \/ exists pk, aims (players gs) pk t.
Proof.
  rewrite resolveRound_aliveFlag, aliveFlag_false_dead.
  apply processKills_dead_iff.
Qed.

Lemma fold_killTurn_dead_from ks ps t :
  dead (fold_left killTurn ks ps) t ->
  dead ps t \/ exists pk, In pk ks /\ aims ps pk t.
Proof.
  revert ps. induction ks as [|k ks IH]; simpl; intros ps Hd; [now left|].
  destruct (IH _ Hd) as [Hd' | (pk & Hin & Ha)].
  - destruct (killTurn_cases ps k) as [Heq | (t' & tgt & Haims & Hget & Hal & Heq)];
      rewrite Heq in Hd'; [now left|].
    destruct (String.eqb_spec t' t) as [-> | Hne].
    + right. exists k. auto.
    + left. destruct Hd' as (g & Hg & Hdead).
      rewrite JsMapFacts.get_set_other in Hg by assumption. exists g. auto.
  - right. exists pk. split; [now right|].
    apply (aims_entrywise _ _ pk t (killTurn_entrywise ps k)). exact Ha.
Qed.

Lemma fold_killTurn_dead_iff ks ps t :
  dead (fold_left killTurn ks ps) t <->
  dead ps t \/ exists pk, In pk ks /\ aims ps pk t.
Proof.
  split; [apply fold_killTurn_dead_from|].
  intros [Hd | (pk & Hin & Ha)].
  - eapply dead_entrywise; [apply processKills_fold_entrywise | exact Hd].
  - apply (fold_killTurn_hits ks ps pk t Hin).
    apply (aims_entrywise _ _ pk t (processKills_fold_entrywise ks ps)). exact Ha.
Qed.

Lemma aliveFlag_by_dead ps ps1 ps2 k :
  entrywise killedOrSame ps ps1 -> entrywise killedOrSame ps ps2 ->
  (dead ps1 k <-> dead ps2 k) -> aliveFlag ps1 k = aliveFlag ps2 k.
Proof.
  intros H1 H2 Hd.
  pose proof (entrywise_get _ _ _ k H1) as G1.
  pose proof (entrywise_get _ _ _ k H2) as G2.
  rewrite <- !aliveFlag_false_dead in Hd. unfold aliveFlag in *.
  destruct (JsMap.get ps k) as [p|], (JsMap.get ps1 k) as [p1|],
           (JsMap.get ps2 k) as [p2|]; simpl in *; try contradiction; auto.
  destruct (isAlive p1), (isAlive p2); auto.
  - destruct Hd as [_ Hd]. now rewrite Hd.
  - destruct Hd as [Hd _]. now rewrite Hd.
Qed.

(** X2.  The order in which the kill loop visits the participants does
    not matter: visiting them in any rearrangement of the map order
    leaves every participant with the same alive flag. *)
Theorem kill_order_irrelevant (ps : JsMap.t PlayerState) (ks : list string) :
  Permutation (JsMap.keys ps) ks ->
  forall k, aliveFlag (fold_left killTurn ks ps) k = aliveFlag (processKills ps) k.
Proof.
  intros Hperm k.
  apply (aliveFlag_by_dead ps); try apply processKills_fold_entrywise.
  unfold processKills. rewrite !fold_killTurn_dead_iff.
  split; (intros [Hd | (pk & Hin & Ha)]; [now left | right; exists pk; split; auto]).
  - eapply Permutation_in; [apply Permutation_sym|]; eassumption.
  - eapply Permutation_in; eassumption.
Qed.

Lemma kill_order_irrelevant_witness :
  aliveFlag (fold_left killTurn ["carol"; "bob"; "alice"] (players standoff)) "alice"
  = Some false.
Proof.
  rewrite (kill_order_irrelevant (players standoff) ["carol"; "bob"; "alice"]).
  - reflexivity.
  - change (Permutation ["alice"; "bob"; "carol"] (rev ["alice"; "bob"; "carol"])).
    apply Permutation_rev.
Defined.

(** ** Who can hold a stored kill *)

Lemma get_values_Forall {V : Type} (P : V -> Prop) (m : JsMap.t V) k v :
  Forall P (JsMap.values m) -> JsMap.get m k = Some v -> P v.
Proof.
  intros HF. induction m as [|[k0 v0] m IH]; simpl; [discriminate|].
  simpl in HF. inversion HF; subst.
  destruct (k0 =? k); [intros H; injection H as <-; assumption | auto].
Qed.

Lemma makeBotDecision_kill r1 r2 gameState d :
  makeBotDecision r1 r2 gameState = Some d ->
  strictEq (type d) "kill" = true ->
  exists yr, yourRole gameState = Some yr /\ isImpostorRole yr = true.
Proof.
  unfold makeBotDecision.
  destruct (yourRole gameState) as [yr|]; [|discriminate].
  intros Hd Hk. exists yr. split; [reflexivity|].
  destruct (view_phase gameState).
  - destruct (isImpostorRole yr); [reflexivity|].
    simpl in Hd. injection Hd as <-. discriminate.
  - injection Hd as <-. simpl in Hk.
    destruct (nth_error movements _) as [m|] eqn:Hm; [|discriminate].
    apply nth_error_In in Hm. simpl in Hm.
    destruct Hm as [<- | [<- | [<- | []]]]; discriminate.
  - destruct (Qltb r1 (7 # 10)); injection Hd as <-; discriminate.
  - injection Hd as <-. discriminate.
Qed.

Lemma putPlayer_killsByImpostors gs pk p :
  killsByImpostors gs -> killByImpostor p -> killsByImpostors (putPlayer pk p gs).
Proof.
  intros H Hp. unfold killsByImpostors. simpl. now apply values_set_Forall.
Qed.

Lemma recordVote_players k v gs : players (recordVote k v gs) = players gs.
Proof.
  unfold recordVote. now destruct (votingResults gs).
Qed.

Lemma handleReply_killsByImpostors gs pk d :
  killsByImpostors gs -> killsByImpostors (handleReply gs pk d).
Proof.
  intros H. unfold handleReply.
  destruct (JsMap.get (players gs) pk) as [player|] eqn:Hget; [|exact H].
  pose proof (get_values_Forall _ _ _ _ H Hget) as Hp.
  destruct (isAlive player); simpl; [|exact H].
  destruct (phase gs).
  - destruct (truthy (type d)); [|exact H].
    apply putPlayer_killsByImpostors; [exact H|].
    intros a Ha Hk. cbn [lastAction setLastAction role] in Ha |- *.
    injection Ha as <-.
    destruct (isImpostorRole (role player)); [reflexivity|].
    destruct (strictEq (type d) "kill") eqn:Ed; simpl in Hk; congruence.
  - destruct (truthy (type d)); [|exact H].
    apply putPlayer_killsByImpostors; [exact H | exact Hp].
  - destruct (target d); [exact H| |];
      (unfold killsByImpostors; rewrite recordVote_players;
       apply putPlayer_killsByImpostors; [exact H | exact Hp]).
  - exact H.
Qed.

Lemma botTurn_killsByImpostors e gs pk :
  killsByImpostors gs -> killsByImpostors (botTurn e gs pk).
Proof.
  intros H. unfold botTurn.
  destruct (JsMap.get (players gs) pk) as [player|] eqn:Hget; [|exact H].
  pose proof (get_values_Forall _ _ _ _ H Hget) as Hp.
  destruct (String.prefix "bot-" pk && isAlive player); [|exact H].
  destruct (makeBotDecision _ _ _) as [d|] eqn:Hd; [|exact H].
  destruct (phase gs).
  - apply putPlayer_killsByImpostors; [exact H|].
    intros a Ha Hk. cbn [lastAction setLastAction role] in Ha |- *.
    injection Ha as <-.
    destruct (makeBotDecision_kill _ _ _ _ Hd Hk) as (yr & Hyr & Himp).
    rewrite (getPlayerView_yourRole gs pk player Hget) in Hyr.
    injection Hyr as <-. exact Himp.
  - apply putPlayer_killsByImpostors; [exact H | exact Hp].
  - unfold killsByImpostors. rewrite recordVote_players.
    apply putPlayer_killsByImpostors; [exact H | exact Hp].
  - exact H.
Qed.

Lemma broadcastGameState_killsByImpostors e gs :
  killsByImpostors gs -> killsByImpostors (broadcastGameState e gs).
Proof.
  intros H. unfold broadcastGameState.
  apply (fold_left_invariant killsByImpostors).
  - intros s sub Hs. unfold handleSubscriber.
    destruct (status sub =? "active"); [|exact Hs].
    destruct (answer e (subscriber sub)); [|exact Hs].
    now apply handleReply_killsByImpostors.
  - apply (fold_left_invariant killsByImpostors); [|exact H].
    intros s pk Hs. now apply botTurn_killsByImpostors.
Qed.

Lemma startRound_killsByImpostors e gs :
  killsByImpostors gs -> killsByImpostors (startRound e gs).
Proof.
  intros H. unfold startRound. destruct (isActive gs); simpl; [|exact H].
  now apply broadcastGameState_killsByImpostors.
Qed.

Lemma killedOrSame_killByImpostor p q :
  killedOrSame p q -> killByImpostor p -> killByImpostor q.
Proof. intros [-> | ->]; auto. Qed.

Lemma operation_killsByImpostors gs gs' :
  operation gs gs' -> killsByImpostors gs -> killsByImpostors gs'.
Proof.
  intros Hop H. destruct Hop.
  - unfold startGame. apply startRound_killsByImpostors.
    unfold killsByImpostors, assignRoles. simpl.
    apply (fold_left_invariant
             (fun m : JsMap.t PlayerState => Forall killByImpostor (JsMap.values m)));
      [|exact H].
    intros m ik Hm. apply values_set_Forall; [exact Hm|]. intros a Ha. discriminate.
  - unfold killsByImpostors, assignRoles. simpl.
    apply (fold_left_invariant
             (fun m : JsMap.t PlayerState => Forall killByImpostor (JsMap.values m)));
      [|exact H].
    intros m ik Hm. apply values_set_Forall; [exact Hm|]. intros a Ha. discriminate.
  - now apply startRound_killsByImpostors.
  - now apply broadcastGameState_killsByImpostors.
  - now apply broadcastGameState_killsByImpostors.
  - unfold processVotes. destruct (resolveVotes gs) as [r|] eqn:Hr; [|exact H].
    assert (Hrr : killsByImpostors r).
    { destruct (resolveVotes_fields gs r Hr) as (_ & _ & _ & _ & _ & _ & He).
      revert H. unfold killsByImpostors.
      eapply entrywise_values_Forall; [apply killedOrSame_killByImpostor | exact He]. }
    assert (Hc : killsByImpostors (checkWinCondition r))
      by (unfold killsByImpostors; now rewrite checkWinCondition_players).
    simpl. destruct (isActive (checkWinCondition r)); [|exact Hc].
    now apply startRound_killsByImpostors.
  - assert (Hc : killsByImpostors (checkWinCondition (resolveRound gs))).
    { unfold killsByImpostors. rewrite checkWinCondition_players.
      eapply Forall_impl; [|apply resolveRound_cleared].
      intros p [Ha _] a Hsome. congruence. }
    unfold processRound.
    destruct (isActive (checkWinCondition (resolveRound gs))).
    + now apply startRound_killsByImpostors.
    + now apply broadcastGameState_killsByImpostors.
  - now apply broadcastGameState_killsByImpostors.
  - unfold killsByImpostors. now rewrite checkWinCondition_players.
Qed.

(** X3.  Only an impostor ever holds a stored kill.  A new game has no
    stored kill held by a crewmate, and no sequence of operations, under
    any answers of the subscribers and any draws, produces one: a kill
    answered by a crewmate is stored as a pass, and the fallback policy
    produces a kill only for an impostor. *)
Theorem stored_kills_belong_to_impostors :
  (forall e, fair e -> killsByImpostors (newManager e)) /\
  (forall gs gs', killsByImpostors gs -> operations gs gs' ->
                  killsByImpostors gs').
Proof.
  split.
  - intros e Hf. apply (operation_killsByImpostors initializeGameState).
    + now apply op_startGame.
    + constructor.
  - intros gs gs' H Hops. induction Hops; eauto using operation_killsByImpostors.
Qed.

(** Carol, a crewmate, answers an action broadcast with a kill aimed at
    dave: what is stored for her is a pass. *)
Lemma stored_kills_belong_to_impostors_witness :
  killsByImpostors
    (startMovementPhase quietEnv (broadcastGameState carolEnv (newManager quietEnv))) /\
  option_map (fun p => option_map type (lastAction p))
    (JsMap.get (players (broadcastGameState carolEnv (newManager quietEnv))) "carol")
  = Some (Some (str "pass")).
Proof.
  destruct stored_kills_belong_to_impostors as [Hnew Hops].
  split; [|reflexivity].
  apply (Hops (newManager quietEnv)).
  - apply Hnew. apply fair_demo.
  - eapply ops_step; [apply op_broadcastGameState|].
    eapply ops_step; [apply op_startMovementPhase|]. apply ops_done.
Defined.

(** ** What a running game keeps *)

Lemma aged_refl p : aged p p.
Proof. repeat split; auto. Qed.

Lemma aged_trans p q r : aged p q -> aged q r -> aged p r.
Proof.
  intros (H1 & H2 & H3) (H4 & H5 & H6). repeat split; try congruence. auto.
Qed.

Lemma slotsOnly_aged p q : slotsOnly p q -> aged p q.
Proof. intros (H1 & H2 & H3). repeat split; congruence. Qed.

Lemma killedOrSame_aged p q : killedOrSame p q -> aged p q.
Proof. intros [-> | ->]; repeat split; auto. Qed.

Lemma resolveRound_aged gs : entrywise aged (players gs) (players (resolveRound gs)).
Proof.
  unfold resolveRound. simpl.
  eapply entrywise_compose with
    (R1 := killedOrSame) (R2 := fun q r => r = clearRecords (movePlayer q)).
  - intros p q r Hk ->.
    apply aged_trans with q; [now apply killedOrSame_aged|].
    unfold aged, clearRecords. simpl. rewrite isAlive_movePlayer.
    unfold movePlayer. destruct (lastMovement q) as [m|]; simpl; auto.
    destruct (strictEq (type m) "clockwise"); simpl; auto.
    destruct (strictEq (type m) "counterclockwise"); simpl; auto.
  - apply processKills_fold_entrywise.
  - eapply entrywise_compose with
      (R1 := fun q r => r = movePlayer q) (R2 := fun q r => r = clearRecords q).
    + intros p q r -> ->. reflexivity.
    + now apply entrywise_forEachValue.
    + now apply entrywise_forEachValue.
Qed.

Lemma entrywise_aged_slots ps ps' : entrywise slotsOnly ps ps' -> entrywise aged ps ps'.
Proof. apply entrywise_impl, slotsOnly_aged. Qed.

Lemma entrywise_aged_trans ps1 ps2 ps3 :
  entrywise aged ps1 ps2 -> entrywise aged ps2 ps3 -> entrywise aged ps1 ps3.
Proof. apply entrywise_trans, aged_trans. Qed.

Lemma play_aged gs gs' : play gs gs' -> entrywise aged (players gs) (players gs').
Proof.
  intros Hp. destruct Hp.
  - apply entrywise_aged_slots, startRound_players.
  - unfold startMovementPhase.
    apply entrywise_aged_slots.
    apply (col_players _ _ (broadcastGameState_collected e (setPhase movement gs))).
  - unfold startVotingPhase. apply entrywise_aged_slots.
    match goal with |- entrywise _ _ (players (broadcastGameState ?e ?s)) =>
      apply (col_players _ _ (broadcastGameState_collected e s)) end.
  - destruct (resolveVotes gs) as [r|] eqn:Hr.
    + apply entrywise_aged_trans with (players r).
      * destruct (resolveVotes_fields gs r Hr) as (_ & _ & _ & _ & _ & _ & He).
        eapply entrywise_impl; [apply killedOrSame_aged | exact He].
      * apply entrywise_aged_slots, (processVotes_players e gs r Hr).
    + unfold processVotes. rewrite Hr. apply entrywise_refl, aged_refl.
  - apply entrywise_aged_trans with (players (checkWinCondition (resolveRound gs))).
    + rewrite checkWinCondition_players. apply resolveRound_aged.
    + unfold processRound.
      destruct (isActive (checkWinCondition (resolveRound gs))).
      * apply entrywise_aged_slots.
        apply (startRound_players e
                 (setCurrentRound
                    (currentRound (checkWinCondition (resolveRound gs)) + 1)
                    (checkWinCondition (resolveRound gs)))).
      * apply entrywise_aged_slots.
        apply (col_players _ _ (broadcastGameState_collected e _)).
  - apply entrywise_aged_slots.
    apply (col_players _ _ (broadcastGameState_collected e gs)).
  - rewrite checkWinCondition_players. apply entrywise_refl, aged_refl.
Qed.

Lemma plays_aged gs gs' : plays gs gs' -> entrywise aged (players gs) (players gs').
Proof.
  induction 1.
  - apply entrywise_refl, aged_refl.
  - eapply entrywise_aged_trans; [apply play_aged|]; eassumption.
Qed.

(** X4.  Death is final: in a running game (any sequence of operations
    other than the set-up, under any answers and draws) a participant
    whose alive flag is false keeps it false. *)
Theorem dead_stays_dead (gs gs' : GameState) (k : string) :
  plays gs gs' ->
  aliveFlag (players gs) k = Some false ->
  aliveFlag (players gs') k = Some false.
Proof.
  intros Hp Hd. pose proof (entrywise_get _ _ _ k (plays_aged gs gs' Hp)) as H.
  unfold aliveFlag in *.
  destruct (JsMap.get (players gs) k) as [p|]; [|discriminate].
  destruct (JsMap.get (players gs') k) as [q|]; [|contradiction].
  simpl in *. injection Hd as Hd. destruct H as (_ & _ & H). now rewrite (H Hd).
Qed.

Lemma dead_stays_dead_witness :
  aliveFlag (players (processVotes quietEnv demoVote)) "bob" = Some false /\
  aliveFlag
    (players (processRound quietEnv
                (startMovementPhase moveEnv (processVotes quietEnv demoVote))))
    "bob" = Some false.
Proof.
  split; [reflexivity|].
  apply (dead_stays_dead (processVotes quietEnv demoVote)).
  - eapply plays_step; [apply play_startMovementPhase|].
    eapply plays_step; [apply play_processRound|]. apply plays_done.
  - reflexivity.
Defined.

(** X5.  The seats are fixed: a running game never adds or removes a
    participant, never reorders them, and never changes the publicKey or
    the faction of one. *)
Theorem seats_and_factions_fixed (gs gs' : GameState) :
  plays gs gs' ->
  JsMap.keys (players gs') = JsMap.keys (players gs) /\
  forall k,
    option_map (fun p => (publicKey p, role_type (role p)))
               (JsMap.get (players gs') k)
    = option_map (fun p => (publicKey p, role_type (role p)))
                 (JsMap.get (players gs) k).
Proof.
  intros Hp. pose proof (plays_aged gs gs' Hp) as He. split.
  - eapply entrywise_keys; eauto.
  - intros k. pose proof (entrywise_get _ _ _ k He) as H.
    destruct (JsMap.get (players gs) k) as [p|],
             (JsMap.get (players gs') k) as [q|]; simpl; try contradiction; auto.
    destruct H as (-> & -> & _). reflexivity.
Qed.

Lemma seats_and_factions_fixed_witness :
  JsMap.keys (players (processRound quietEnv (startMovementPhase moveEnv demoGame)))
  = ["alice"; "bob"; "carol"; "dave"; "erin"; "frank"].
Proof.
  destruct (seats_and_factions_fixed demoGame
              (processRound quietEnv (startMovementPhase moveEnv demoGame)))
    as [Hkeys _].
  - eapply plays_step; [apply play_startMovementPhase|].
    eapply plays_step; [apply play_processRound|]. apply plays_done.
  - rewrite Hkeys. reflexivity.
Defined.

(** ** The dead take no part in a broadcast *)

Lemma putPlayer_other gs pk p k :
  pk <> k -> JsMap.get (players (putPlayer pk p gs)) k = JsMap.get (players gs) k.
Proof.
  intros Hne. simpl. now apply JsMapFacts.get_set_other.
Qed.

Lemma recordVote_other gs pk v k :
  pk <> k -> recordedVote (recordVote pk v gs) k = recordedVote gs k.
Proof.
  intros Hne. unfold recordVote, recordedVote.
  destruct (votingResults gs) as [m|] eqn:Hv; simpl; [|now rewrite Hv].
  now apply JsMapFacts.get_set_other.
Qed.

Lemma handleReply_spares_dead gs pk d k p :
  JsMap.get (players gs) k = Some p -> isAlive p = false ->
  JsMap.get (players (handleReply gs pk d)) k = Some p /\
  recordedVote (handleReply gs pk d) k = recordedVote gs k.
Proof.
  intros Hget Hd. unfold handleReply.
  destruct (JsMap.get (players gs) pk) as [player|] eqn:Hpk; [|auto].
  destruct (isAlive player) eqn:Hal; simpl; [|auto].
  assert (Hne : pk <> k) by (intros ->; congruence).
  destruct (phase gs).
  - destruct (truthy (type d)); [|auto]. rewrite putPlayer_other by assumption. auto.
  - destruct (truthy (type d)); [|auto]. rewrite putPlayer_other by assumption. auto.
  - destruct (target d); [auto| |];
      (rewrite recordVote_players, putPlayer_other, recordVote_other by assumption;
       auto).
  - auto.
Qed.

Lemma botTurn_spares_dead e gs pk k p :
  JsMap.get (players gs) k = Some p -> isAlive p = false ->
  JsMap.get (players (botTurn e gs pk)) k = Some p /\
  recordedVote (botTurn e gs pk) k = recordedVote gs k.
Proof.
  intros Hget Hd. unfold botTurn.
  destruct (JsMap.get (players gs) pk) as [player|] eqn:Hpk; [|auto].
  destruct (String.prefix "bot-" pk); simpl; [|auto].
  destruct (isAlive player) eqn:Hal; [|auto].
  assert (Hne : pk <> k) by (intros ->; congruence).
  destruct (makeBotDecision _ _ _) as [bd|]; [|auto].
  destruct (phase gs).
  - rewrite putPlayer_other by assumption. auto.
  - rewrite putPlayer_other by assumption. auto.
  - rewrite recordVote_players, putPlayer_other, recordVote_other by assumption. auto.
  - auto.
Qed.

(** X6.  A broadcast takes nothing from the dead: whatever the
    subscribers answer and whatever the phase, the record of a dead
    participant is left exactly as it was (no decision slot is written)
    and no vote is recorded or changed for them. *)
Theorem broadcast_spares_the_dead (e : Env) (gs : GameState) (k : string)
  (p : PlayerState) :
  JsMap.get (players gs) k = Some p -> isAlive p = false ->
  JsMap.get (players (broadcastGameState e gs)) k = Some p /\
  recordedVote (broadcastGameState e gs) k = recordedVote gs k.
Proof.
  intros Hget Hd. unfold broadcastGameState.
  apply (fold_left_invariant
           (fun s => JsMap.get (players s) k = Some p /\
                     recordedVote s k = recordedVote gs k)).
  - intros s sub [Hs Hv]. unfold handleSubscriber.
    destruct (status sub =? "active"); [|auto].
    destruct (answer e (subscriber sub)) as [d|]; [|auto].
    destruct (handleReply_spares_dead s (subscriber sub) d k p Hs Hd) as [H1 H2].
    split; congruence.
  - apply (fold_left_invariant
             (fun s => JsMap.get (players s) k = Some p /\
                       recordedVote s k = recordedVote gs k)); [|auto].
    intros s pk [Hs Hv].
    destruct (botTurn_spares_dead e s pk k p Hs Hd) as [H1 H2].
    split; congruence.
Qed.

(** Bob was ejected; in the next voting phase he answers with a vote,
    which is not taken. *)
Lemma broadcast_spares_the_dead_witness :
  aliveFlag (players (processVotes quietEnv demoVote)) "bob" = Some false /\
  recordedVote (startVotingPhase tieEnv "alice" (processVotes quietEnv demoVote)) "bob"
  = None /\
  recordedVote (startVotingPhase tieEnv "alice" (processVotes quietEnv demoVote)) "alice"
  = Some "bob".
Proof.
  split; [reflexivity|]. split; [|reflexivity].
  destruct (JsMap.get (players (processVotes quietEnv demoVote)) "bob") as [bob|] eqn:Hb;
    [|vm_compute in Hb; discriminate].
  assert (Hd : isAlive bob = false)
    by (vm_compute in Hb; injection Hb as <-; reflexivity).
  unfold startVotingPhase.
  match goal with |- recordedVote (broadcastGameState ?e ?s) _ = _ =>
    destruct (broadcast_spares_the_dead e s "bob" bob Hb Hd) as [_ Hv] end.
  rewrite Hv. reflexivity.
Defined.

(** ** The round counter *)

Lemma operation_round gs gs' :
  operation gs gs' ->
  currentRound gs' = currentRound gs \/
  (currentRound gs' = (currentRound gs + 1)%Z /\ isActive gs' = true /\
   phase gs' = action).
Proof.
  intros Hop. destruct Hop.
  - left. unfold startGame. now rewrite startRound_currentRound.
  - left. reflexivity.
  - left. apply startRound_currentRound.
  - left. unfold startMovementPhase.
    apply (col_round _ _ (broadcastGameState_collected e (setPhase movement gs))).
  - left. unfold startVotingPhase.
    match goal with |- currentRound (broadcastGameState ?e ?s) = _ =>
      apply (col_round _ _ (broadcastGameState_collected e s)) end.
  - left. unfold processVotes. destruct (resolveVotes gs) as [r|] eqn:Hr; [|reflexivity].
    destruct (resolveVotes_fields gs r Hr) as (_ & Hround & _).
    assert (Hc : currentRound (checkWinCondition r) = currentRound r).
    { destruct (checkWinCondition_cases r)
        as [[_ ->] | [(_ & _ & ->) | (_ & _ & ->)]]; reflexivity. }
    simpl. destruct (isActive (checkWinCondition r));
      [rewrite startRound_currentRound|]; congruence.
  - destruct (isActive (checkWinCondition (resolveRound gs))) eqn:Ha.
    + right. destruct (processRound_continues e gs Ha) as (H1 & H2 & H3). auto.
    + left. unfold processRound. rewrite Ha.
      rewrite (col_round _ _ (broadcastGameState_collected e _)).
      destruct (checkWinCondition_cases (resolveRound gs))
        as [[_ ->] | [(_ & _ & ->) | (_ & _ & ->)]]; reflexivity.
  - left. apply (col_round _ _ (broadcastGameState_collected e gs)).
  - left. destruct (checkWinCondition_cases gs)
      as [[_ ->] | [(_ & _ & ->) | (_ & _ & ->)]]; reflexivity.
Qed.

(** X7.  The round counter starts at 1, never decreases, and moves only
    by one step at a time: an operation either leaves it as it is or
    adds exactly one, and it adds one only when it leaves the game active
    in the action phase (processRound going on to a new round). *)
Theorem round_counter_monotone :
  (forall e, currentRound (newManager e) = 1%Z) /\
  (forall gs gs', operation gs gs' ->
     currentRound gs' = currentRound gs \/
     (currentRound gs' = (currentRound gs + 1)%Z /\ isActive gs' = true /\
      phase gs' = action)) /\
  (forall gs gs', operations gs gs' -> (currentRound gs <= currentRound gs')%Z).
Proof.
  split; [|split].
  - intros e. unfold newManager, startGame. now rewrite startRound_currentRound.
  - apply operation_round.
  - intros gs gs' Hops. induction Hops as [|gs1 gs2 gs3 Hop _ IH]; [lia|].
    destruct (operation_round gs1 gs2 Hop) as [H | (H & _)]; lia.
Qed.

Lemma round_counter_monotone_witness :
  (currentRound demoGame
   <= currentRound (processRound quietEnv (startMovementPhase moveEnv demoGame)))%Z.
Proof.
  destruct round_counter_monotone as (_ & _ & Hmono).
  apply Hmono.
  eapply ops_step; [apply op_startMovementPhase|].
  eapply ops_step; [apply op_processRound|]. apply ops_done.
Defined.

(** ** The end of the game *)

Lemma checkWinCondition_inactive gs :
  isActive gs = false -> isActive (checkWinCondition gs) = false.
Proof.
  intros H. destruct (checkWinCondition_cases gs)
    as [[_ ->] | [(_ & _ & ->) | (_ & _ & ->)]]; auto.
Qed.

Lemma operation_inactive gs gs' :
  operation gs gs' -> isActive gs = false -> isActive gs' = false.
Proof.
  intros Hop H. destruct Hop.
  - unfold startGame. now rewrite startRound_isActive.
  - exact H.
  - now rewrite startRound_isActive.
  - unfold startMovementPhase.
    now rewrite (col_active _ _ (broadcastGameState_collected e _)).
  - unfold startVotingPhase.
    match goal with |- isActive (broadcastGameState ?e ?s) = _ =>
      now rewrite (col_active _ _ (broadcastGameState_collected e s)) end.
  - unfold processVotes. destruct (resolveVotes gs) as [r|] eqn:Hr; [|exact H].
    destruct (resolveVotes_fields gs r Hr) as (_ & _ & _ & _ & Hact & _).
    simpl. rewrite (checkWinCondition_inactive r) by congruence.
    apply checkWinCondition_inactive. congruence.
  - unfold processRound.
    rewrite (checkWinCondition_inactive (resolveRound gs)) by exact H.
    rewrite (col_active _ _ (broadcastGameState_collected e _)).
    now apply checkWinCondition_inactive.
  - now rewrite (col_active _ _ (broadcastGameState_collected e gs)).
  - now apply checkWinCondition_inactive.
Qed.

(** X8.  The end of the game is final: once the game is inactive no
    operation, the set-up included, makes it active again, and the phase
    entry of a new round does nothing at all to an inactive game. *)
Theorem game_over_is_final (gs gs' : GameState) :
  isActive gs = false -> operations gs gs' ->
  isActive gs' = false /\ forall e, startRound e gs' = gs'.
Proof.
  intros H Hops.
  assert (Hin : isActive gs' = false)
    by (induction Hops; eauto using operation_inactive).
  split; [exact Hin|]. intros e. unfold startRound. now rewrite Hin.
Qed.

Lemma game_over_is_final_witness :
  isActive (processRound quietEnv standoff) = false /\
  isActive (processRound moveEnv
              (startMovementPhase moveEnv (processRound quietEnv standoff))) = false.
Proof.
  split; [reflexivity|].
  apply (game_over_is_final (processRound quietEnv standoff)); [reflexivity|].
  eapply ops_step; [apply op_startMovementPhase|].
  eapply ops_step; [apply op_processRound|]. apply ops_done.
Defined.

Lemma checkWinCondition_settled gs : settled gs -> settled (checkWinCondition gs).
Proof.
  intros H. destruct (checkWinCondition_cases gs)
    as [[_ ->] | [(_ & _ & ->) | (_ & _ & ->)]]; auto;
    right; split; simpl; [reflexivity | discriminate | reflexivity | discriminate].
Qed.

Lemma settled_fields gs gs' :
  isActive gs' = isActive gs -> winner gs' = winner gs -> settled gs -> settled gs'.
Proof. unfold settled. intros -> ->. auto. Qed.

Lemma broadcastGameState_settled e gs : settled gs -> settled (broadcastGameState e gs).
Proof.
  destruct (broadcastGameState_collected e gs). now apply settled_fields.
Qed.

Lemma startRound_settled e gs : settled gs -> settled (startRound e gs).
Proof.
  destruct (startRound_cases e gs) as [[_ ->] | [_ []]]; auto.
  intros H. eapply settled_fields; eauto.
Qed.

Lemma operation_settled gs gs' : operation gs gs' -> settled gs -> settled gs'.
Proof.
  intros Hop H. destruct Hop.
  - unfold startGame. apply startRound_settled. exact H.
  - exact H.
  - now apply startRound_settled.
  - unfold startMovementPhase. apply broadcastGameState_settled. exact H.
  - unfold startVotingPhase. apply broadcastGameState_settled. exact H.
  - unfold processVotes. destruct (resolveVotes gs) as [r|] eqn:Hr; [|exact H].
    destruct (resolveVotes_fields gs r Hr) as (_ & _ & _ & _ & Hact & Hwin & _).
    assert (Hc : settled (checkWinCondition r))
      by (apply checkWinCondition_settled; eapply settled_fields; eauto).
    simpl. destruct (isActive (checkWinCondition r)); [|exact Hc].
    now apply startRound_settled.
  - assert (Hc : settled (checkWinCondition (resolveRound gs)))
      by (apply checkWinCondition_settled; exact H).
    unfold processRound. destruct (isActive (checkWinCondition (resolveRound gs))).
    + apply startRound_settled. exact Hc.
    + now apply broadcastGameState_settled.
  - now apply broadcastGameState_settled.
  - now apply checkWinCondition_settled.
Qed.

(** X9.  The winner is set exactly when the game is over: in a new game
    and after any sequence of operations, either the game is active and
    there is no winner, or it is inactive and there is one. *)
Theorem winner_iff_game_over :
  (forall e, settled (newManager e)) /\
  (forall gs gs', settled gs -> operations gs gs' -> settled gs').
Proof.
  split.
  - intros e. unfold newManager, startGame. apply startRound_settled.
    left. split; reflexivity.
  - intros gs gs' H Hops. induction Hops; eauto using operation_settled.
Qed.

Lemma winner_iff_game_over_witness :
  settled standoff /\ settled (processRound quietEnv standoff) /\
  winner (processRound quietEnv standoff) = Some crew.
Proof.
  destruct winner_iff_game_over as [_ Hops].
  assert (Hs : settled standoff) by (left; split; reflexivity).
  split; [exact Hs|]. split; [|reflexivity].
  apply (Hops standoff _ Hs).
  eapply ops_step; [apply op_processRound | apply ops_done].
Defined.

(** ** The vote tally, in general *)

Lemma keys_set {V : Type} (m : JsMap.t V) k v :
  JsMap.keys (JsMap.set m k v)
  = if in_dec string_dec k (JsMap.keys m) then JsMap.keys m
    else (JsMap.keys m ++ [k])%list.
Proof.
  unfold JsMap.keys. induction m as [|[k0 v0] m IH]; simpl; [reflexivity|].
  destruct (String.eqb_spec k0 k) as [-> | Hne]; simpl.
  - destruct (string_dec k k); [reflexivity | contradiction].
  - destruct (string_dec k0 k); [contradiction|].
    rewrite IH. destruct (in_dec string_dec k (map fst m)); reflexivity.
Qed.

Lemma set_NoDup {V : Type} (m : JsMap.t V) k v :
  NoDup (JsMap.keys m) -> NoDup (JsMap.keys (JsMap.set m k v)).
Proof.
  intros H. rewrite keys_set.
  destruct (in_dec string_dec k (JsMap.keys m)) as [Hin | Hout]; [exact H|].
  apply NoDup_app; [exact H | repeat constructor; auto |].
  intros a Ha [<- | []]. contradiction.
Qed.

Lemma in_get_NoDup {V : Type} (m : JsMap.t V) k v :
  NoDup (JsMap.keys m) -> In (k, v) m -> JsMap.get m k = Some v.
Proof.
  induction m as [|[k0 v0] m IH]; simpl; [contradiction|].
  intros Hnd [Heq | Hin]; inversion Hnd as [|? ? Hk0 Hnd']; subst.
  - injection Heq as -> ->. now rewrite String.eqb_refl.
  - destruct (String.eqb_spec k0 k) as [-> | Hne]; [|auto].
    exfalso. apply Hk0. unfold JsMap.keys.
    change k with (fst (k, v)). now apply in_map.
Qed.

Lemma get_in {V : Type} (m : JsMap.t V) k v :
  JsMap.get m k = Some v -> In (k, v) m.
Proof.
  induction m as [|[k0 v0] m IH]; simpl; [discriminate|].
  destruct (String.eqb_spec k0 k) as [-> | Hne]; [|auto].
  intros H. injection H as ->. now left.
Qed.

Lemma countVote_get votes x t :
  JsMap.get (countVote votes x) t
  = if x =? t
    then Some (match JsMap.get votes t with Some c => c | None => 0 end + 1)%Z
    else JsMap.get votes t.
Proof.
  unfold countVote. destruct (String.eqb_spec x t) as [-> | Hne].
  - apply JsMapFacts.get_set_same.
  - now apply JsMapFacts.get_set_other.
Qed.

Lemma fold_countVote_get l :
  forall votes t,
    JsMap.get (fold_left countVote l votes) t
    = match JsMap.get votes t with
      | Some c => Some (c + Z.of_nat (count_occ string_dec l t))%Z
      | None => if (count_occ string_dec l t =? 0)%nat then None
                else Some (Z.of_nat (count_occ string_dec l t))
      end.
Proof.
  induction l as [|x l IH]; intros votes t.
  - cbn [fold_left count_occ Nat.eqb].
    destruct (JsMap.get votes t); [f_equal; lia | reflexivity].
  - cbn [fold_left]. rewrite IH, countVote_get.
    destruct (string_dec x t) as [-> | Hne].
    + rewrite String.eqb_refl, count_occ_cons_eq by reflexivity.
      cbn [Nat.eqb]. rewrite Nat2Z.inj_succ.
      destruct (JsMap.get votes t); f_equal; lia.
    + rewrite count_occ_cons_neq by assumption.
      apply String.eqb_neq in Hne. rewrite Hne. reflexivity.
Qed.

Lemma tally_get results t :
  JsMap.get (tally results) t
  = if "skip" =? t then Some (votesFor results t)
    else if (votesFor results t =? 0)%Z then None
    else Some (votesFor results t).
Proof.
  unfold tally, votesFor. rewrite fold_countVote_get.
  cbn [JsMap.set JsMap.empty JsMap.get].
  destruct ("skip" =? t); [reflexivity|].
  destruct (count_occ string_dec (JsMap.values results) t); reflexivity.
Qed.

Lemma countVote_NoDup votes x :
  NoDup (JsMap.keys votes) -> NoDup (JsMap.keys (countVote votes x)).
Proof. apply set_NoDup. Qed.

Lemma tally_NoDup results : NoDup (JsMap.keys (tally results)).
Proof.
  unfold tally.
  apply (fold_left_invariant (fun m : JsMap.t Z => NoDup (JsMap.keys m))).
  - intros m x. apply countVote_NoDup.
  - repeat constructor. simpl. tauto.
Qed.

Lemma totalCount_set votes k v :
  totalCount (JsMap.set votes k v)
  = (totalCount votes - match JsMap.get votes k with Some c => c | None => 0 end + v)%Z.
Proof.
  unfold totalCount. induction votes as [|[k0 c0] votes IH]; simpl; [lia|].
  destruct (k0 =? k); simpl; [lia|]. rewrite IH. lia.
Qed.

Lemma totalCount_tally results :
  totalCount (tally results) = Z.of_nat (length results).
Proof.
  unfold tally, JsMap.values. rewrite <- (length_map snd results).
  generalize (map snd results). intros l.
  assert (H : forall votes,
             totalCount (fold_left countVote l votes)
             = (totalCount votes + Z.of_nat (length l))%Z).
  { induction l as [|x l IH]; intros votes; simpl fold_left; simpl length; [lia|].
    rewrite IH. unfold countVote. rewrite totalCount_set. lia. }
  rewrite H. reflexivity.
Qed.

Lemma tally_entry results t c :
  In (t, c) (tally results) -> c = votesFor results t.
Proof.
  intros Hin.
  pose proof (in_get_NoDup _ _ _ (tally_NoDup results) Hin) as Hget.
  rewrite tally_get in Hget.
  destruct ("skip" =? t); [congruence|].
  destruct (votesFor results t =? 0)%Z; congruence.
Qed.

Lemma tally_get_voted results t :
  (0 < votesFor results t)%Z ->
  JsMap.get (tally results) t = Some (votesFor results t).
Proof.
  intros Hpos. rewrite tally_get.
  destruct ("skip" =? t); [reflexivity|].
  destruct (Z.eqb_spec (votesFor results t) 0); [lia | reflexivity].
Qed.

(** X10.  The tally counts every recorded vote exactly once: each key of
    the tally appears once and carries the number of voters whose
    recorded vote is that key; every target with at least one vote, and
    always the skip sentinel, has an entry; the counts add up to the
    number of recorded votes. *)
Theorem tally_counts_votes (results : JsMap.t string) :
  NoDup (JsMap.keys (tally results)) /\
  (forall t c, In (t, c) (tally results) -> c = votesFor results t) /\
  JsMap.get (tally results) "skip" = Some (votesFor results "skip") /\
  (forall t, (0 < votesFor results t)%Z ->
             JsMap.get (tally results) t = Some (votesFor results t)) /\
  totalCount (tally results) = Z.of_nat (length results).
Proof.
  split; [apply tally_NoDup|]. split; [|split; [|split]].
  - apply tally_entry.
  - now rewrite tally_get.
  - apply tally_get_voted.
  - apply totalCount_tally.
Qed.

Lemma tally_counts_votes_witness :
  JsMap.get (tally [("alice", "bob"); ("carol", "bob"); ("dave", "skip")]) "bob"
  = Some 2%Z.
Proof.
  destruct (tally_counts_votes [("alice", "bob"); ("carol", "bob"); ("dave", "skip")])
    as (_ & _ & _ & H & _).
  rewrite H; [reflexivity|]. vm_compute. reflexivity.
Defined.

Lemma highest_some_in votes t :
  snd (highest votes) = Some t ->
  In (t, fst (highest votes)) votes /\ (0 < fst (highest votes))%Z.
Proof.
  intros H. destruct (highest_first_max votes) as (_ & _ & Hw).
  rewrite H in Hw. destruct Hw as (Hpos & l1 & l2 & Heq & _).
  split; [|exact Hpos]. rewrite Heq at 2. apply in_or_app. right. now left.
Qed.

Lemma highest_ge votes t c :
  In (t, c) votes -> (c <= fst (highest votes))%Z.
Proof.
  intros Hin. destruct (highest_first_max votes) as (_ & Hall & _).
  rewrite Forall_forall in Hall. apply (Hall _ Hin).
Qed.

Lemma highest_strict_plurality results t :
  (forall t', t' <> t -> (votesFor results t' < votesFor results t)%Z) ->
  t <> "skip" ->
  snd (highest (tally results)) = Some t.
Proof.
  intros Hmax Hsk.
  assert (Hpos : (0 < votesFor results t)%Z).
  { specialize (Hmax "skip" (fun E => Hsk (eq_sym E))).
    unfold votesFor in *. lia. }
  pose proof (get_in _ _ _ (tally_get_voted results t Hpos)) as Hin.
  pose proof (highest_ge _ _ _ Hin) as Hge.
  destruct (snd (highest (tally results))) as [t'|] eqn:Hw.
  - destruct (highest_some_in _ _ Hw) as [Hin' _].
    pose proof (tally_entry _ _ _ Hin') as Hc.
    destruct (string_dec t' t) as [-> | Hne]; [reflexivity|].
    specialize (Hmax t' Hne). lia.
  - destruct (highest_first_max (tally results)) as (_ & _ & Hnone).
    rewrite Hw in Hnone. lia.
Qed.

Lemma resolveVotes_strict_plurality gs results accused t player :
  votingResults gs = Some results ->
  accusedPlayer gs = Some accused -> accused <> "" ->
  t <> "" -> t <> "skip" ->
  JsMap.get (players gs) t = Some player ->
  (forall t', t' <> t -> (votesFor results t' < votesFor results t)%Z) ->
  resolveVotes gs = Some (putPlayer t (setIsAlive false player) gs).
Proof.
  intros Hv Hacc Hne Ht Hsk Hget Hmax.
  unfold resolveVotes, eject. rewrite Hv, Hacc.
  apply String.eqb_neq in Hne, Ht. rewrite Hne.
  rewrite (highest_strict_plurality results t Hmax Hsk).
  apply String.eqb_neq in Hsk. rewrite Ht, Hsk. cbn [negb andb].
  now rewrite Hget.
Qed.

(** X11.  A strict plurality ejects: when one participant has strictly
    more recorded votes than every other key, the skip sentinel
    included, processVotes sets that participant's alive flag to false
    and leaves every other alive flag as it was.  No majority of the
    voters is asked for. *)
Theorem strict_plurality_is_ejected (e : Env) (gs : GameState)
  (results : JsMap.t string) (accused t : string) (player : PlayerState) :
  votingResults gs = Some results ->
  accusedPlayer gs = Some accused -> accused <> "" ->
  t <> "" -> t <> "skip" ->
  JsMap.get (players gs) t = Some player ->
  (forall t', t' <> t -> (votesFor results t' < votesFor results t)%Z) ->
  aliveFlag (players (processVotes e gs)) t = Some false /\
  forall k, k <> t ->
    aliveFlag (players (processVotes e gs)) k = aliveFlag (players gs) k.
Proof.
  intros Hv Hacc Hne Ht Hsk Hget Hmax.
  pose proof (resolveVotes_strict_plurality gs results accused t player
                Hv Hacc Hne Ht Hsk Hget Hmax) as Hr.
  split.
  - rewrite (aliveFlag_slotsOnly _ _ t (processVotes_players e gs _ Hr)).
    unfold aliveFlag. simpl. now rewrite JsMapFacts.get_set_same.
  - intros k Hk.
    rewrite (aliveFlag_slotsOnly _ _ k (processVotes_players e gs _ Hr)).
    unfold aliveFlag. simpl. now rewrite JsMapFacts.get_set_other.
Qed.

(** Two votes for carol, one for dave, three participants silent: carol
    is ejected by two votes out of six participants. *)
Lemma strict_plurality_is_ejected_witness :
  aliveFlag (players pluralityVote) "carol" = Some true /\
  aliveFlag (players (processVotes quietEnv pluralityVote)) "carol" = Some false.
Proof.
  split; [reflexivity|].
  destruct (JsMap.get (players pluralityVote) "carol") as [carol|] eqn:Hget;
    [|vm_compute in Hget; discriminate].
  apply (strict_plurality_is_ejected quietEnv pluralityVote
           [("alice", "carol"); ("bob", "carol"); ("erin", "dave")]
           "carol" "carol" carol);
    try reflexivity; try discriminate; try exact Hget.
  intros t' Hne. unfold votesFor. cbn [JsMap.values map snd count_occ].
  destruct (string_dec "carol" t') as [E | _]; [congruence|].
  destruct (string_dec "dave" t'); vm_compute; reflexivity.
Defined.

(** The tally keeps the skip sentinel in front. *)
Lemma fold_countVote_head l :
  forall k c votes, exists c' votes',
    fold_left countVote l ((k, c) :: votes) = (k, c') :: votes'.
Proof.
  induction l as [|x l IH]; intros k c votes; simpl; [eauto|].
  unfold countVote at 2. cbn [JsMap.set].
  destruct (k =? x); apply IH.
Qed.

Lemma highest_skip_or_none results :
  (forall t, (votesFor results t <= votesFor results "skip")%Z) ->
  snd (highest (tally results)) = None \/
  snd (highest (tally results)) = Some "skip".
Proof.
  intros Hskip.
  destruct (fold_countVote_head (JsMap.values results) "skip" 0%Z [])
    as (c & rest & Htally).
  fold (JsMap.set (@JsMap.empty Z) "skip" 0%Z) in Htally.
  change (tally results = ("skip", c) :: rest) in Htally.
  assert (Hc : c = votesFor results "skip").
  { apply tally_entry. rewrite Htally. now left. }
  destruct (highest_first_max (tally results)) as (_ & _ & Hw).
  destruct (snd (highest (tally results))) as [t|] eqn:Hs; [|now left].
  right. destruct Hw as (Hpos & l1 & l2 & Heq & Hl1).
  remember (fst (highest (tally results))) as m eqn:Hm0. clear Hm0 Hs.
  assert (Hin : In (t, m) (tally results))
    by (rewrite Heq; apply in_or_app; right; now left).
  pose proof (tally_entry _ _ _ Hin) as Hm.
  rewrite Htally in Heq.
  destruct l1 as [|[k0 c0] l1]; simpl in Heq.
  - injection Heq as E _ _. now rewrite <- E.
  - exfalso. injection Heq as E1 E2 _.
    inversion Hl1 as [|? ? Hlt _]; subst. simpl in Hlt.
    specialize (Hskip t). lia.
Qed.

(** X12.  The skip sentinel wins every tie it is part of: when no key
    has more recorded votes than skip has (in particular when nobody
    voted, or everybody skipped), the vote ejects nobody, and no alive
    flag changes. *)
Theorem skip_wins_ties (e : Env) (gs : GameState) (results : JsMap.t string) :
  votingResults gs = Some results ->
  (forall t, (votesFor results t <= votesFor results "skip")%Z) ->
  forall k, aliveFlag (players (processVotes e gs)) k = aliveFlag (players gs) k.
Proof.
  intros Hv Hskip k.
  destruct (resolveVotes gs) as [r|] eqn:Hr;
    [|unfold processVotes; now rewrite Hr].
  rewrite (aliveFlag_slotsOnly _ _ k (processVotes_players e gs r Hr)).
  unfold resolveVotes in Hr. rewrite Hv in Hr.
  destruct (accusedPlayer gs) as [accused|]; [|discriminate].
  destruct (accused =? ""); [discriminate|].
  injection Hr as <-.
  destruct (highest_skip_or_none results Hskip) as [-> | ->]; reflexivity.
Qed.

(** Alice and bob skip, carol votes for dave, dave for carol: skip has
    two votes, nobody has more, nobody is ejected. *)
Lemma skip_wins_ties_witness :
  forall k,
    aliveFlag
      (players (processVotes quietEnv
         (setVotingResults
            (Some [("alice", "skip"); ("carol", "dave"); ("dave", "carol");
                   ("bob", "skip")])
            pluralityVote))) k
    = aliveFlag (players pluralityVote) k.
Proof.
  intros k.
  apply (skip_wins_ties quietEnv
           (setVotingResults
              (Some [("alice", "skip"); ("carol", "dave"); ("dave", "carol");
                     ("bob", "skip")])
              pluralityVote)
           [("alice", "skip"); ("carol", "dave"); ("dave", "carol"); ("bob", "skip")]).
  - reflexivity.
  - intros t. unfold votesFor. cbn [JsMap.values map snd count_occ].
    destruct (string_dec "skip" t) as [E | _]; [discriminate E || idtac|].
    + subst t. vm_compute. discriminate.
    + destruct (string_dec "dave" t), (string_dec "carol" t);
        try (vm_compute; discriminate); congruence.
Defined.

(** X13.  A vote ejects at most one participant: processVotes changes
    the alive flag of at most one key, and only from true to false. *)
Theorem vote_ejects_at_most_one (e : Env) (gs : GameState) :
  exists name,
    (forall k, k <> name ->
       aliveFlag (players (processVotes e gs)) k = aliveFlag (players gs) k) /\
    (aliveFlag (players (processVotes e gs)) name = aliveFlag (players gs) name \/
     aliveFlag (players (processVotes e gs)) name = Some false).
Proof.
  destruct (resolveVotes gs) as [r|] eqn:Hr.
  - assert (Hflag : forall k, aliveFlag (players (processVotes e gs)) k
                              = aliveFlag (players r) k)
      by (intros k; apply aliveFlag_slotsOnly, (processVotes_players e gs r Hr)).
    unfold resolveVotes in Hr.
    destruct (votingResults gs) as [results|]; [|discriminate].
    destruct (accusedPlayer gs) as [accused|]; [|discriminate].
    destruct (accused =? ""); [discriminate|]. injection Hr as <-.
    destruct (eject_cases (snd (highest (tally results))) gs)
      as [Heq | (name & player & _ & _ & _ & Hget & Heq)].
    + exists "". split; [intros k _|left]; now rewrite Hflag, Heq.
    + exists name. split.
      * intros k Hk. rewrite Hflag, Heq. unfold aliveFlag. simpl.
        now rewrite JsMapFacts.get_set_other.
      * right. rewrite Hflag, Heq. unfold aliveFlag. simpl.
        now rewrite JsMapFacts.get_set_same.
  - exists "". unfold processVotes. rewrite Hr. auto.
Qed.

(** ** The action order *)

Lemma startRound_actionOrder e gs :
  isActive gs = true ->
  actionOrder (startRound e gs) = sortRandom e (livingKeys gs).
Proof.
  intros Ha. destruct (startRound_cases e gs) as [[H _] | [_ []]]; [congruence|].
  rewrite col_order0. reflexivity.
Qed.

Lemma livingKeys_in gs k :
  In k (livingKeys gs) <-> aliveFlag (players gs) k = Some true.
Proof.
  unfold livingKeys, aliveFlag. rewrite filter_In. split.
  - intros [_ H]. destruct (JsMap.get (players gs) k); simpl; [congruence | discriminate].
  - destruct (JsMap.get (players gs) k) as [p|] eqn:Hget; simpl; [|discriminate].
    intros H. injection H as H. split; [|exact H].
    eapply JsMapFacts.get_in_keys; eauto.
Qed.

(** X15.  The action order of a round lists the living: when startRound
    starts a round of an active game, the action order it publishes is a
    rearrangement of the keys of the participants that are alive, so a
    key is in it exactly when that participant is alive. *)
Theorem actionOrder_lists_the_living (e : Env) (gs : GameState) :
  fair e -> isActive gs = true ->
  Permutation (livingKeys gs) (actionOrder (startRound e gs)) /\
  forall k, In k (actionOrder (startRound e gs))
            <-> aliveFlag (players gs) k = Some true.
Proof.
  intros Hf Ha. rewrite (startRound_actionOrder e gs Ha).
  pose proof (fair_sort e Hf (livingKeys gs)) as Hperm.
  split; [exact Hperm|]. intros k. rewrite <- livingKeys_in. split.
  - apply Permutation_in. now apply Permutation_sym.
  - now apply Permutation_in.
Qed.

Lemma actionOrder_lists_the_living_witness :
  actionOrder (processRound quietEnv (startMovementPhase quietEnv demoGame))
  = ["alice"; "carol"; "dave"; "erin"; "frank"] /\
  (In "bob" (actionOrder (startRound quietEnv
                            (checkWinCondition
                               (resolveRound (startMovementPhase quietEnv demoGame)))))
   <-> aliveFlag (players (checkWinCondition
                             (resolveRound (startMovementPhase quietEnv demoGame))))
                 "bob" = Some true).
Proof.
  split; [reflexivity|].
  apply (actionOrder_lists_the_living quietEnv); [apply fair_demo | reflexivity].
Defined.

(** ** What a view shows *)

Lemma map_entrywise {A : Type} (R : PlayerState -> PlayerState -> Prop)
  (f : PlayerState -> A) ps ps' :
  (forall p q, R p q -> f q = f p) ->
  entrywise R ps ps' -> map f (JsMap.values ps') = map f (JsMap.values ps).
Proof.
  intros Hf H. induction H as [|a b l1 l2 [_ Hab] _ IH]; simpl; [reflexivity|].
  now rewrite (Hf _ _ Hab), IH.
Qed.

Lemma notImpostor_view gs pk :
  notImpostor gs pk ->
  view_players (getPlayerView gs pk) = map (viewOf false) (JsMap.values (players gs)).
Proof.
  unfold notImpostor, getPlayerView. simpl.
  destruct (JsMap.get (players gs) pk) as [p|]; [intros ->|]; reflexivity.
Qed.

(** X16.  A viewer who is not an impostor learns no faction from the
    view: every player record of the view has the role field absent, and
    the whole view stays the same when the factions (and the stored
    movements) of the participants are changed in any way, as long as the
    viewer's own role is not. *)
Theorem crewmate_view_hides_factions (gs gs' : GameState) (pk : string) :
  notImpostor gs pk ->
  Forall (fun pv => pv_role pv = None) (view_players (getPlayerView gs pk)) /\
  (entrywise hiddenSame (players gs) (players gs') ->
   option_map role (JsMap.get (players gs') pk)
   = option_map role (JsMap.get (players gs) pk) ->
   phase gs' = phase gs -> currentRound gs' = currentRound gs ->
   actionOrder gs' = actionOrder gs -> accusedPlayer gs' = accusedPlayer gs ->
   winner gs' = winner gs ->
   getPlayerView gs' pk = getPlayerView gs pk).
Proof.
  intros Hni. split.
  - rewrite (notImpostor_view gs pk Hni). apply Forall_forall.
    intros pv Hin. apply in_map_iff in Hin. now destruct Hin as (p & <- & _).
  - intros He Hrole Hph Hround Hord Hacc Hwin.
    assert (Hni' : notImpostor gs' pk).
    { unfold notImpostor in *.
      destruct (JsMap.get (players gs') pk) as [q|],
               (JsMap.get (players gs) pk) as [p|]; simpl in Hrole;
        try discriminate; auto.
      injection Hrole as ->. exact Hni. }
    pose proof (notImpostor_view gs pk Hni) as Hv.
    pose proof (notImpostor_view gs' pk Hni') as Hv'.
    assert (Hmap : map (viewOf false) (JsMap.values (players gs'))
                   = map (viewOf false) (JsMap.values (players gs))).
    { apply (map_entrywise hiddenSame); [|exact He].
      intros p q (H1 & H2 & H3 & H4 & H5). unfold viewOf. congruence. }
    unfold getPlayerView in *. simpl in Hv, Hv'.
    rewrite Hv, Hv', Hmap, Hrole, Hph, Hround, Hord, Hacc, Hwin. reflexivity.
Qed.

(** Carol is a crewmate of the demo game: her view shows no role, and is
    the same in the game where alice and bob are crewmates too. *)
Lemma crewmate_view_hides_factions_witness :
  Forall (fun pv => pv_role pv = None) (view_players (getPlayerView demoGame "carol")) /\
  getPlayerView
    (setPlayers
       (JsMap.forEachValue
          (fun p => mkPlayer (publicKey p) (mkRole crewmate (room (role p)))
                      (isAlive p) (lastAction p) (lastMovement p) (lastVote p))
          (players demoGame))
       demoGame) "carol"
  = getPlayerView demoGame "carol".
Proof.
  assert (Hni : notImpostor demoGame "carol") by reflexivity.
  destruct (crewmate_view_hides_factions demoGame
              (setPlayers
                 (JsMap.forEachValue
                    (fun p => mkPlayer (publicKey p) (mkRole crewmate (room (role p)))
                                (isAlive p) (lastAction p) (lastMovement p) (lastVote p))
                    (players demoGame))
                 demoGame) "carol" Hni) as [Hhide Hsame].
  split; [exact Hhide|].
  apply Hsame; try reflexivity.
  apply entrywise_forEachValue. intros p. repeat split.
Defined.

(** X17.  The view gives the impostors away all the same.  The stored
    action of every participant is copied into every view, whoever the
    viewer is; in a game that keeps its stored kills with the impostors
    (every game does: stored_kills_belong_to_impostors), a view record
    that shows a kill is the record of an impostor. *)
Theorem view_shows_who_kills (gs : GameState) (viewer : string)
  (pv : PlayerView) (a : Decision) :
  killsByImpostors gs ->
  In pv (view_players (getPlayerView gs viewer)) ->
  pv_lastAction pv = Some a -> strictEq (type a) "kill" = true ->
  exists p, In p (JsMap.values (players gs)) /\
            publicKey p = pv_publicKey pv /\
            isImpostorRole (role p) = true.
Proof.
  intros Hinv Hin Ha Hk. unfold getPlayerView in Hin. simpl in Hin.
  apply in_map_iff in Hin. destruct Hin as (p & <- & Hp).
  exists p. split; [exact Hp|]. split; [reflexivity|].
  unfold killsByImpostors in Hinv. rewrite Forall_forall in Hinv.
  exact (Hinv p Hp a Ha Hk).
Qed.
